(** * Serie A tournament: the pairing engine (src/engine.py)

    A shallow embedding of [generate_round] and its helpers, and the
    properties of the round generator stated over it.

    Modelling conventions.
    - Python [int] is [Z]; a player dict is the record [player]; the
      partnership set is a [gset (Z * Z)], the opponent, games-played and
      wins dicts are [gmap]s ([dict.get(k, 0)] is [default 0 (d !! k)]).
    - [random.shuffle] is an oracle: any function that threads a generator
      state and returns a permutation of its argument ([Shuffler]).  All
      theorems hold for every such oracle.
    - Code that can raise returns in the [res] monad: a subscript or [pop]
      out of range is [Raise IndexError]; the [while] loop of the third
      pass runs on fuel and [Raise OutOfFuel] marks exhaustion.
    - The score accumulator, a Python float that only ever receives
      integer operands, is modelled by the integer it holds ([Z]); the
      initial [float("-inf")] is [NegInf]. *)

From stdpp Require Import gmap strings list sorting.
From Stdlib Require Import ZArith Lia.

Local Open Scope Z_scope.
#[local] Set Warnings "-clear-no-such-hyp".

(** ** Exceptions *)

Inductive exn := IndexError | OutOfFuel.

Inductive res (A : Type) : Type :=
| Ok (a : A)
| Raise (e : exn).
Arguments Ok {A} a.
Arguments Raise {A} e.

Global Instance res_ret : MRet res := λ A a, Ok a.
Global Instance res_bind : MBind res := λ A B f m,
  match m with
  | Ok a => f a
  | Raise e => Raise e
  end.

(** ** Python list primitives *)

(** [l[i]] for an integer subscript: negative subscripts count from the
    end, anything out of range raises. *)
Definition py_index {A} (l : list A) (i : Z) : res A :=
  let j := if decide (i < 0) then i + Z.of_nat (length l) else i in
  if decide (j < 0) then Raise IndexError
  else match l !! Z.to_nat j with
       | Some x => Ok x
       | None => Raise IndexError
       end.

(** The clamping of one slice bound. *)
Definition py_bound (len : nat) (i : Z) : nat :=
  if decide (i < 0) then Z.to_nat (Z.max 0 (i + Z.of_nat len))
  else Z.to_nat (Z.min i (Z.of_nat len)).

(** [l[a:b]]; slicing never raises. *)
Definition py_slice {A} (l : list A) (a b : Z) : list A :=
  let lo := py_bound (length l) a in
  let hi := py_bound (length l) b in
  take (hi - lo)%nat (drop lo l).

(** [l[:b]]. *)
Definition py_prefix {A} (l : list A) (b : Z) : list A :=
  take (py_bound (length l) b) l.

(** [l.pop()]: remove and return the last element. *)
Definition pop_last {A} (l : list A) : res (A * list A) :=
  match last l with
  | Some x => Ok (x, take (length l - 1)%nat l)
  | None => Raise IndexError
  end.

(** [l.pop(i)] for an index [i >= 0]. *)
Definition pop_at {A} (i : nat) (l : list A) : res (A * list A) :=
  match l !! i with
  | Some x => Ok (x, delete i l)
  | None => Raise IndexError
  end.

(** [range(n)] as the list of its values. *)
Definition py_range (n : Z) : list Z := seqZ 0 n.

(** ** The random source *)

Class Shuffler := {
  rng : Type;
  shuffle : ∀ {A : Type}, rng → list A → list A * rng;
  shuffle_perm : ∀ (A : Type) (g : rng) (l : list A), (shuffle g l).1 ≡ₚ l
}.

(** A concrete oracle: an insertion shuffle driven by a list of draws.
    Each element is inserted in the result built so far at the position
    given by the next draw (position 0 once the draws are used up). *)
Definition insert_at {A} (n : nat) (x : A) (l : list A) : list A :=
  take n l ++ x :: drop n l.

Fixpoint draw_shuffle {A} (g : list nat) (l : list A) : list A * list nat :=
  match l with
  | [] => ([], g)
  | x :: l' =>
      let '(r, g1) := draw_shuffle g l' in
      match g1 with
      | [] => (x :: r, [])
      | d :: g2 => (insert_at (d `mod` S (length r))%nat x r, g2)
      end
  end.

(** ** Data model *)

Record player := Player { id : Z; name : string; gender : string }.

Global Instance player_eq_dec : EqDecision player.
Proof. solve_decision. Defined.

(** A match dict: [{"court": c, "team1": [..], "team2": [..]}]. *)
Record court_match := Match {
  court : Z;
  team1 : list player;
  team2 : list player
}.

Global Instance court_match_eq_dec : EqDecision court_match.
Proof. solve_decision. Defined.

Definition pair_key (a b : Z) : Z * Z := (Z.min a b, Z.max a b).

(** The initial best score is [float("-inf")]. *)
Inductive score_bound := NegInf | Fin (s : Z).

(** [score > best_score]. *)
Definition score_gt (s : Z) (b : score_bound) : bool :=
  match b with
  | NegInf => true
  | Fin b' => bool_decide (s > b')
  end.

(** The players of a match and of a round, in order. *)
Definition match_players (m : court_match) : list player :=
  team1 m ++ team2 m.

Definition round_players (ms : list court_match) : list player :=
  concat (match_players <$> ms).

Definition flat_pairs (ps : list (player * player)) : list player :=
  concat ((λ p, [p.1; p.2]) <$> ps).

(** ** _select_players *)

Section sort.
Context {A : Type} (key : A → Z).

(** [list.sort(key=...)] is a stable sort; insertion from the right is
    one. *)
Fixpoint insert_by (x : A) (l : list A) : list A :=
  match l with
  | [] => [x]
  | y :: l' =>
      if decide (key x ≤ key y) then x :: y :: l'
      else y :: insert_by x l'
  end.

Fixpoint sort_by (l : list A) : list A :=
  match l with
  | [] => []
  | x :: l' => insert_by x (sort_by l')
  end.
End sort.

Definition games_of (games_played : gmap Z Z) (p : player) : Z :=
  default 0 (games_played !! id p).

Section engine.
Context `{Shuffler}.

Definition _select_players (g : rng) (players : list player) (needed : Z)
    (games_played : gmap Z Z) : list player * rng :=
  if decide (Z.of_nat (length players) ≤ needed) then (players, g)
  else
    let '(shuffled, g1) := shuffle g players in
    let shuffled := sort_by (games_of games_played) shuffled in
    (py_prefix shuffled needed, g1).

(** ** _form_pairs *)

Record pair_state := PairState {
  pairs : list (player * player);
  used_m : gset Z;
  used_f : gset Z
}.

(** First pass, inner loop: the first female not yet used whose pair
    with [m] is not in the history. *)
Fixpoint scan_novel (past : gset (Z * Z)) (m : player) (used : gset Z)
    (females : list player) : option player :=
  match females with
  | [] => None
  | f :: females' =>
      if decide (id f ∈ used) then scan_novel past m used females'
      else if decide (pair_key (id m) (id f) ∉ past) then Some f
      else scan_novel past m used females'
  end.

(** Second pass, inner loop: the first female not yet used. *)
Fixpoint scan_any (used : gset Z) (females : list player) : option player :=
  match females with
  | [] => None
  | f :: females' =>
      if decide (id f ∈ used) then scan_any used females'
      else Some f
  end.

Definition add_pair (st : pair_state) (m f : player) : pair_state :=
  PairState (pairs st ++ [(m, f)]) ({[id m]} ∪ used_m st) ({[id f]} ∪ used_f st).

(** Body of the first outer loop; the trailing
    [if m["id"] in used_m: continue] does nothing. *)
Definition first_pass_step (past : gset (Z * Z)) (females : list player)
    (st : pair_state) (m : player) : pair_state :=
  match scan_novel past m (used_f st) females with
  | Some f => add_pair st m f
  | None => st
  end.

Definition second_pass_step (remaining_f : list player)
    (st : pair_state) (m : player) : pair_state :=
  match scan_any (used_f st) remaining_f with
  | Some f => add_pair st m f
  | None => st
  end.

(** Third pass: [enumerate(leftover)] searched for the first partner
    not in the history; [best_idx] stays 0 when there is none. *)
Fixpoint scan_partner (past : gset (Z * Z)) (p1 : player) (idx : nat)
    (leftover : list player) : option nat :=
  match leftover with
  | [] => None
  | p2 :: leftover' =>
      if decide (pair_key (id p1) (id p2) ∉ past) then Some idx
      else scan_partner past p1 (S idx) leftover'
  end.

Definition best_idx (past : gset (Z * Z)) (p1 : player)
    (leftover : list player) : nat :=
  default 0%nat (scan_partner past p1 0 leftover).

(** [while len(leftover) >= 2: ...]. *)
Fixpoint leftover_loop (fuel : nat) (past : gset (Z * Z))
    (leftover : list player) (acc : list (player * player))
    : res (list (player * player)) :=
  if decide (2 ≤ length leftover)%nat then
    match fuel with
    | O => Raise OutOfFuel
    | S fuel' =>
        '(p1, leftover1) ← pop_last leftover;
        '(p2, leftover2) ← pop_at (best_idx past p1 leftover1) leftover1;
        leftover_loop fuel' past leftover2 (acc ++ [(p1, p2)])
    end
  else Ok acc.

Definition unused (used : gset Z) (l : list player) : list player :=
  filter (λ p, id p ∉ used) l.

Definition _form_pairs (g : rng) (males females : list player)
    (past : gset (Z * Z)) : res (list (player * player) * rng) :=
  let '(males, g1) := shuffle g males in
  let '(females, g2) := shuffle g1 females in
  let st1 := foldl (first_pass_step past females) (PairState [] ∅ ∅) males in
  let remaining_m := unused (used_m st1) males in
  let remaining_f := unused (used_f st1) females in
  let st2 := foldl (second_pass_step remaining_f) st1 remaining_m in
  let leftover := unused (used_m st2) males ++ unused (used_f st2) females in
  let '(leftover, g3) := shuffle g2 leftover in
  ps ← leftover_loop (length leftover) past leftover (pairs st2);
  Ok (ps, g3).

(** ** _generate_candidate *)

Definition build_match (ps : list (player * player)) (i : Z)
    : res court_match :=
  t1 ← py_index ps (i * 2);
  t2 ← py_index ps (i * 2 + 1);
  Ok (Match (i + 1) [t1.1; t1.2] [t2.1; t2.2]).

Fixpoint build_matches (ps : list (player * player)) (idxs : list Z)
    (acc : list court_match) : res (list court_match) :=
  match idxs with
  | [] => Ok acc
  | i :: idxs' =>
      m ← build_match ps i;
      build_matches ps idxs' (acc ++ [m])
  end.

(** [None] of the source is the inner [None]. *)
Definition _generate_candidate (g : rng) (players : list player)
    (num_matches : Z) (past : gset (Z * Z))
    : res (option (list court_match) * rng) :=
  let '(shuffled, g1) := shuffle g players in
  let males := filter (λ p, gender p = "M"%string) shuffled in
  let females := filter (λ p, gender p = "F"%string) shuffled in
  '(ps, g2) ← _form_pairs g1 males females past;
  if decide (Z.of_nat (length ps) < num_matches * 2) then Ok (None, g2)
  else
    let '(ps, g3) := shuffle g2 ps in
    ms ← build_matches ps (py_range num_matches) [];
    Ok (Some ms, g3).

(** ** _score_candidate *)

Definition team_key (team : list player) : res (Z * Z) :=
  a ← py_index team 0;
  b ← py_index team 1;
  Ok (pair_key (id a) (id b)).

Definition partnership_penalty (past : gset (Z * Z)) (score : Z)
    (team : list player) : res Z :=
  k ← team_key team;
  Ok (if decide (k ∈ past) then score - 100 else score).

Definition times_faced (past_opponents : gmap (Z * Z) Z) (p1 p2 : player) : Z :=
  default 0 (past_opponents !! pair_key (id p1) (id p2)).

Definition opponent_penalty (past_opponents : gmap (Z * Z) Z) (score : Z)
    (t1 t2 : list player) : Z :=
  foldl (λ s p1,
           foldl (λ s' p2, s' - times_faced past_opponents p1 p2 * 10) s t2)
        score t1.

(** [len({team[0]["gender"], team[1]["gender"]}) == 2]. *)
Definition mixed_bonus (score : Z) (team : list player) : res Z :=
  a ← py_index team 0;
  b ← py_index team 1;
  Ok (if decide (gender a ≠ gender b) then score + 15 else score).

Definition wins_of (wins : gmap Z Z) (p : player) : Z :=
  default 0 (wins !! id p).

Definition team_wins (wins : gmap Z Z) (team : list player) : Z :=
  foldl (λ s p, s + wins_of wins p) 0 team.

Definition score_match (past : gset (Z * Z)) (past_opponents : gmap (Z * Z) Z)
    (wins : gmap Z Z) (score : Z) (m : court_match) : res Z :=
  let t1 := team1 m in
  let t2 := team2 m in
  score ← partnership_penalty past score t1;
  score ← partnership_penalty past score t2;
  let score := opponent_penalty past_opponents score t1 t2 in
  score ← mixed_bonus score t1;
  score ← mixed_bonus score t2;
  let win_diff := Z.abs (team_wins wins t1 - team_wins wins t2) in
  Ok (score - win_diff * 2).

Fixpoint score_loop (past : gset (Z * Z)) (past_opponents : gmap (Z * Z) Z)
    (wins : gmap Z Z) (score : Z) (ms : list court_match) : res Z :=
  match ms with
  | [] => Ok score
  | m :: ms' =>
      score ← score_match past past_opponents wins score m;
      score_loop past past_opponents wins score ms'
  end.

Definition _score_candidate (ms : list court_match) (past : gset (Z * Z))
    (past_opponents : gmap (Z * Z) Z) (wins : gmap Z Z) : res Z :=
  score_loop past past_opponents wins 0 ms.

(** ** _generate_fallback *)

Fixpoint fallback_loop (shuffled : list player) (idxs : list Z)
    (acc : list court_match) : list court_match :=
  match idxs with
  | [] => acc
  | i :: idxs' =>
      let start := i * 4 in
      let group := py_slice shuffled start (start + 4) in
      if decide (length group < 4)%nat then acc
      else fallback_loop shuffled idxs'
             (acc ++ [Match (i + 1) (py_prefix group 2) (py_slice group 2 4)])
  end.

Definition _generate_fallback (g : rng) (players : list player)
    (num_matches : Z) : list court_match * rng :=
  let '(shuffled, g1) := shuffle g players in
  (fallback_loop shuffled (py_range num_matches) [], g1).

(** ** generate_round *)

Record best := Best {
  best_matches : option (list court_match);
  best_score : score_bound
}.

Definition attempt (playing : list player) (max_matches : Z)
    (past : gset (Z * Z)) (past_opponents : gmap (Z * Z) Z) (wins : gmap Z Z)
    (st : best * rng) : res (best * rng) :=
  let '(b, g) := st in
  '(candidate, g1) ← _generate_candidate g playing max_matches past;
  match candidate with
  | None => Ok (b, g1)
  | Some c =>
      score ← _score_candidate c past past_opponents wins;
      if score_gt score (best_score b) then Ok (Best (Some c) (Fin score), g1)
      else Ok (b, g1)
  end.

Fixpoint attempt_loop (n : nat) (playing : list player) (max_matches : Z)
    (past : gset (Z * Z)) (past_opponents : gmap (Z * Z) Z) (wins : gmap Z Z)
    (st : best * rng) : res (best * rng) :=
  match n with
  | O => Ok st
  | S n' =>
      st1 ← attempt playing max_matches past past_opponents wins st;
      attempt_loop n' playing max_matches past past_opponents wins st1
  end.

Definition generate_round (g : rng) (players : list player) (num_courts : Z)
    (past : gset (Z * Z)) (past_opponents : gmap (Z * Z) Z)
    (games_played wins : gmap Z Z) (num_attempts : Z) (skip_selection : bool)
    : res (list court_match * rng) :=
  if decide (length players < 4)%nat then Ok ([], g)
  else
    let max_matches := Z.min num_courts (Z.of_nat (length players) `div` 4) in
    if decide (max_matches = 0) then Ok ([], g)
    else
      let '(playing, g1) :=
        if skip_selection then (players, g)
        else _select_players g players (max_matches * 4) games_played in
      '(b, g2) ← attempt_loop (Z.to_nat num_attempts) playing max_matches
                   past past_opponents wins (Best None NegInf, g1);
      match best_matches b with
      | None =>
          let '(ms, g3) := _generate_fallback g2 playing max_matches in
          Ok (ms, g3)
      | Some ms => Ok (ms, g2)
      end.

End engine.

(** * Specification vocabulary

    The notions the properties below are stated with. *)

(** ** Sorting *)

Definition key_le {A} (key : A → Z) (x y : A) : Prop := key x ≤ key y.

(** What the spec calls a stable ascending sort of [l]. *)
Definition stable_sort_of {A} (key : A → Z) (l l' : list A) : Prop :=
  l' ≡ₚ l ∧ StronglySorted (key_le key) l' ∧
  ∀ k, filter (λ y, key y = k) l' = filter (λ y, key y = k) l.

(** ** Scores *)

(** The score as the spec words it, for a match of two teams of two. *)
Definition repeat_penalty (past : gset (Z * Z)) (a b : player) : Z :=
  if decide (pair_key (id a) (id b) ∈ past) then -100 else 0.

Definition gender_bonus (a b : player) : Z :=
  if decide (gender a ≠ gender b) then 15 else 0.

Definition match_score_spec (past : gset (Z * Z))
    (past_opponents : gmap (Z * Z) Z) (wins : gmap Z Z) (m : court_match) : Z :=
  match team1 m, team2 m with
  | [a; b], [c; d] =>
      repeat_penalty past a b + repeat_penalty past c d
      - 10 * times_faced past_opponents a c
      - 10 * times_faced past_opponents a d
      - 10 * times_faced past_opponents b c
      - 10 * times_faced past_opponents b d
      + gender_bonus a b + gender_bonus c d
      - 2 * Z.abs ((wins_of wins a + wins_of wins b)
                   - (wins_of wins c + wins_of wins d))
  | _, _ => 0
  end.

Definition candidate_score_spec (past : gset (Z * Z))
    (past_opponents : gmap (Z * Z) Z) (wins : gmap Z Z)
    (ms : list court_match) : Z :=
  foldr (λ m s, match_score_spec past past_opponents wins m + s) 0 ms.

Definition score_of (past : gset (Z * Z)) (past_opponents : gmap (Z * Z) Z)
    (wins : gmap Z Z) (c : list court_match) : Z :=
  candidate_score_spec past past_opponents wins c.

(** Both teams of a match are lists of exactly two players. *)
Definition two_a_side (m : court_match) : Prop :=
  length (team1 m) = 2%nat ∧ length (team2 m) = 2%nat.

(** ** Pairs and matches *)

(** What the two mixed passes maintain: the used sets are the ids of the
    males and of the females paired so far, nobody is paired twice, and
    the pairs are drawn from the two groups. *)
Definition pass_inv (males females : list player) (st : pair_state) : Prop :=
  used_m st = list_to_set (id <$> (pairs st).*1) ∧
  used_f st = list_to_set (id <$> (pairs st).*2) ∧
  NoDup (id <$> (pairs st).*1) ∧
  NoDup (id <$> (pairs st).*2) ∧
  (pairs st).*1 ⊆ males ∧ (pairs st).*2 ⊆ females.

(** A loop body that leaves the state alone or pairs the male at hand
    with a female that is still free. *)
Definition pairing_step (females : list player)
    (step : pair_state → player → pair_state) : Prop :=
  ∀ st m, step st m = st ∨
          (∃ f, f ∈ females ∧ (id f ∉ used_f st) ∧ step st m = add_pair st m f).

(** The state after the two mixed passes. *)
Definition mixed_state (past : gset (Z * Z)) (males females : list player)
    : pair_state :=
  let st1 := foldl (first_pass_step past females) (PairState [] ∅ ∅) males in
  foldl (second_pass_step (unused (used_f st1) females)) st1
        (unused (used_m st1) males).

Definition leftover_of (st : pair_state) (males females : list player)
    : list player :=
  unused (used_m st) males ++ unused (used_f st) females.

Definition males_of (l : list player) : list player :=
  filter (λ p, gender p = "M"%string) l.

Definition females_of (l : list player) : list player :=
  filter (λ p, gender p = "F"%string) l.


(** Consecutive pairs grouped two at a time into matches, courts numbered
    from [c]; an odd pair left at the end is dropped. *)
Fixpoint group_pairs (c : Z) (ps : list (player * player)) : list court_match :=
  match ps with
  | t1 :: t2 :: ps' =>
      Match c [t1.1; t1.2] [t2.1; t2.2] :: group_pairs (c + 1) ps'
  | _ => []
  end.

(** Consecutive groups of four players: the first two are team1, the last
    two team2; courts are numbered from [c]. *)
Fixpoint group_fours (c : Z) (l : list player) : list court_match :=
  match l with
  | a :: b :: x :: y :: l' => Match c [a; b] [x; y] :: group_fours (c + 1) l'
  | _ => []
  end.

(** ** Rounds *)

(** [min(num_courts, len(players) // 4)]. *)
Definition match_count (num_courts : Z) (players : list player) : Z :=
  Z.min num_courts (Z.of_nat (length players) `div` 4).

(** What every returned round looks like: teams of two, [n] matches (none
    for a negative [n]) on courts 1, 2, ..., players drawn from the pool. *)
Definition round_shape (pool : list player) (n : Z) (ms : list court_match)
    : Prop :=
  Forall two_a_side ms ∧ length ms = Z.to_nat n ∧
  court <$> ms = seqZ 1 (Z.of_nat (Z.to_nat n)) ∧
  (NoDup (id <$> pool) → round_players ms ⊆+ pool).

(** No player id occurs twice in the round, each match has four players
    with four different ids, and all of them come from the pool. *)
Definition distinct_round (pool : list player) (ms : list court_match) : Prop :=
  Forall (λ m, two_a_side m ∧ NoDup (id <$> match_players m)) ms ∧
  NoDup (id <$> round_players ms) ∧
  round_players ms ⊆+ pool.

(** The update of the best candidate, as a pure function of the candidate
    that arrives and of its score. *)
Definition keep_best (score : list court_match → Z) (b : best)
    (c : option (list court_match)) : best :=
  match c with
  | None => b
  | Some c => if score_gt (score c) (best_score b)
              then Best (Some c) (Fin (score c)) else b
  end.

(** [c], with score [s], is the earliest of the candidates [cs] that
    attains their maximum score. *)
Definition earliest_max (score : list court_match → Z)
    (cs : list (list court_match)) (c : list court_match) : Prop :=
  ∃ i, cs !! i = Some c ∧
       (∀ j c', cs !! j = Some c' → score c' ≤ score c) ∧
       (∀ j c', (j < i)%nat → cs !! j = Some c' → score c' < score c).

(** The arrival-order invariant of the loop. *)
Definition best_of (score : list court_match → Z)
    (cs : list (list court_match)) (b : best) : Prop :=
  match best_matches b with
  | None => cs = [] ∧ best_score b = NegInf
  | Some c => best_score b = Fin (score c) ∧ earliest_max score cs c
  end.

Section trace.
Context `{Shuffler}.
Context (playing : list player) (max_matches : Z) (past : gset (Z * Z)).

(** The candidates produced by [n] successive generations from the
    generator state [g], in arrival order ([None] for an invalid one). *)
Fixpoint candidate_trace (n : nat) (g : rng)
    : list (option (list court_match)) :=
  match n with
  | O => []
  | S n' =>
      match _generate_candidate g playing max_matches past with
      | Ok (c, g1) => c :: candidate_trace n' g1
      | Raise _ => []
      end
  end.

Definition valid_candidates (n : nat) (g : rng) : list (list court_match) :=
  omap (λ c, c) (candidate_trace n g).

End trace.

Section playing.
Context `{Shuffler}.

(** The players who play: all of them on a redraw, the selection
    otherwise. *)
Definition playing_set (g : rng) (players : list player) (max_matches : Z)
    (games_played : gmap Z Z) (skip_selection : bool) : list player * rng :=
  if skip_selection then (players, g)
  else _select_players g players (max_matches * 4) games_played.

End playing.

(** ** A concrete oracle and sample data *)

(** The insertion shuffle is a shuffler. *)
Definition draw_shuffler : Shuffler.
Proof.
  refine {| rng := list nat; shuffle := @draw_shuffle |}.
  intros A g l. induction l as [|x l IH]; simpl; [done|].
  destruct (draw_shuffle g l) as [r g1]; simpl in *.
  destruct g1 as [|d g2]; simpl; [by rewrite IH|].
  unfold insert_at. rewrite <- Permutation_middle, take_drop.
  by rewrite IH.
Defined.

(** Closed decidable facts are settled by evaluation. *)
Ltac decide_closed := apply (bool_decide_unpack _); vm_compute; exact I.

(** Sample data used by the closed instances below. *)
Definition mk (i : Z) (s : string) : player := Player i "" s.

Definition eight : list player :=
  [mk 1 "M"; mk 2 "F"; mk 3 "M"; mk 4 "F"; mk 5 "M"; mk 6 "F"; mk 7 "M"; mk 8 "F"].

Definition four : list player := [mk 1 "M"; mk 2 "F"; mk 3 "M"; mk 4 "F"].

(** ** Further vocabulary *)




(** A pair made of a male and a female, in this order. *)
Definition mixed_pair (p : player * player) : Prop :=
  gender p.1 = "M"%string ∧ gender p.2 = "F"%string.

(** A team of one male followed by one female. *)
Definition mixed_team (team : list player) : Prop :=
  ∃ a b, team = [a; b] ∧ gender a = "M"%string ∧ gender b = "F"%string.

(** No player carries a recognised tag. *)
Definition untagged (l : list player) : Prop :=
  Forall (λ p, gender p ≠ "M"%string ∧ gender p ≠ "F"%string) l.

(** ** db.py: the matches table and the history it yields *)

(** A row of the [matches] table; [winner] is NULL until a result is
    recorded. *)
Record match_row := MatchRow {
  match_id : Z;
  round_id : Z;
  court_number : Z;
  team1_p1 : Z;
  team1_p2 : Z;
  team2_p1 : Z;
  team2_p2 : Z;
  winner : option Z
}.

(** The rows fetched by [get_all_past_partnerships]: the two teams of
    every match ([SELECT team1_p1, team1_p2 ... UNION ALL SELECT team2_p1,
    team2_p2 ...]). *)
Definition partnership_rows (matches : list match_row) : list (Z * Z) :=
  ((λ m, (team1_p1 m, team1_p2 m)) <$> matches) ++
  ((λ m, (team2_p1 m, team2_p2 m)) <$> matches).

(** The loop of [get_all_past_partnerships] over the fetched rows:
    [pairs.add((min(a, b), max(a, b)))]. *)
Definition collect_pairs (rows : list (Z * Z)) : gset (Z * Z) :=
  foldl (λ pairs r, pairs ∪ {[pair_key r.1 r.2]}) ∅ rows.

Definition get_all_past_partnerships (matches : list match_row)
    : gset (Z * Z) :=
  collect_pairs (partnership_rows matches).

(** The rows fetched by [get_all_past_opponents]: the four cross-team
    pairs of every match. *)
Definition opponent_rows (matches : list match_row) : list (Z * Z) :=
  ((λ m, (team1_p1 m, team2_p1 m)) <$> matches) ++
  ((λ m, (team1_p1 m, team2_p2 m)) <$> matches) ++
  ((λ m, (team1_p2 m, team2_p1 m)) <$> matches) ++
  ((λ m, (team1_p2 m, team2_p2 m)) <$> matches).

(** The loop of [get_all_past_opponents]:
    [counts[pair] = counts.get(pair, 0) + 1]. *)
Definition count_pairs (rows : list (Z * Z)) : gmap (Z * Z) Z :=
  foldl (λ counts r,
           <[pair_key r.1 r.2 :=
               default 0 (counts !! pair_key r.1 r.2) + 1]> counts)
        ∅ rows.

Definition get_all_past_opponents (matches : list match_row)
    : gmap (Z * Z) Z :=
  count_pairs (opponent_rows matches).

(** The row is one where [a] and [b] stand on either side, in either
    order. *)
Definition faced (a b : Z) (r : Z * Z) : Prop :=
  (r.1 = a ∧ r.2 = b) ∨ (r.1 = b ∧ r.2 = a).

(** ** app.py: drawing a round *)

(** The arguments of one [db.create_match] call. *)
Record match_call := MatchCall {
  call_round_id : Z;
  call_court_number : Z;
  call_team1_p1 : Z;
  call_team1_p2 : Z;
  call_team2_p1 : Z;
  call_team2_p2 : Z
}.

Definition call_ids (c : match_call) : list Z :=
  [call_team1_p1 c; call_team1_p2 c; call_team2_p1 c; call_team2_p2 c].


(** [match["team1"][0]["id"]] and the like, for one match of the round. *)
Definition create_match_call (rid : Z) (m : court_match) : res match_call :=
  a ← py_index (team1 m) 0;
  b ← py_index (team1 m) 1;
  c ← py_index (team2 m) 0;
  d ← py_index (team2 m) 1;
  Ok (MatchCall rid (court m) (id a) (id b) (id c) (id d)).

(** [for match in matches: db.create_match(...)]. *)
Fixpoint create_match_calls (rid : Z) (ms : list court_match)
    : res (list match_call) :=
  match ms with
  | [] => Ok []
  | m :: ms' =>
      c ← create_match_call rid m;
      cs ← create_match_calls rid ms';
      Ok (c :: cs)
  end.

(** On a redraw with a non-empty locked set only the locked players are
    passed on; [if locked_player_ids:] is false for [None] and for the
    empty set. *)
Definition players_for_engine (active_players : list player)
    (locked_player_ids : option (gset Z)) : list player :=
  match locked_player_ids with
  | Some ids =>
      if decide (ids = ∅) then active_players
      else filter (λ p, id p ∈ ids) active_players
  | None => active_players
  end.

Section draw.
Context `{Shuffler}.

(** [draw_new_round]: the history comes from the matches table, the
    games-played and wins counters are the store's snapshots, [rid] is the
    id [db.create_round()] returns.  [None] is the error message shown
    when the engine returns no match; otherwise the [create_match] calls
    made, in order. *)
Definition draw_new_round (g : rng) (active_players : list player)
    (table : list match_row) (games_played wins_counts : gmap Z Z)
    (num_courts : Z) (locked_player_ids : option (gset Z)) (rid : Z)
    : res (option (list match_call) * rng) :=
  let past_partnerships := get_all_past_partnerships table in
  let past_opponents := get_all_past_opponents table in
  let players := players_for_engine active_players locked_player_ids in
  '(matches, g') ← generate_round g players num_courts past_partnerships
                     past_opponents games_played wins_counts 200
                     (bool_decide (locked_player_ids ≠ None));
  if decide (matches = []) then Ok (None, g')
  else
    calls ← create_match_calls rid matches;
    Ok (Some calls, g').

End draw.


(** ** app.py: the grid of courts *)

(** [matches[match_idx]] for each index of the list, in order. *)
Fixpoint subscript_all {A} (matches : list A) (idxs : list Z)
    : res (list A) :=
  match idxs with
  | [] => Ok []
  | i :: idxs' =>
      m ← py_index matches i;
      ms ← subscript_all matches idxs';
      Ok (m :: ms)
  end.

(** The indices one row of the grid shows: [row * num_cols + col_idx] for
    each column, skipping those past the end of the list. *)
Definition grid_row (len num_cols row : Z) : list Z :=
  filter (λ match_idx, ¬ (match_idx >= len))
         ((λ col_idx, row * num_cols + col_idx) <$> py_range num_cols).

(** [render_courts], as the list of the matches handed to
    [render_single_court], in the order of the calls; nothing is rendered
    for an empty list. *)
Definition render_courts {A} (matches : list A) : res (list A) :=
  if decide (matches = []) then Ok []
  else
    let len := Z.of_nat (length matches) in
    let num_cols := Z.min 3 len in
    let rows := (len + num_cols - 1) `div` num_cols in
    subscript_all matches (concat (grid_row len num_cols <$> py_range rows)).



(** * Facts about the list primitives *)

Lemma py_bound_nonneg (len : nat) (i : Z) :
  0 ≤ i → py_bound len i = (Z.to_nat i `min` len)%nat.
Proof. intros Hi. unfold py_bound. case_decide; lia. Qed.

Lemma py_prefix_nonneg {A} (l : list A) (b : Z) :
  0 ≤ b → py_prefix l b = take (Z.to_nat b) l.
Proof.
  intros Hb. unfold py_prefix. rewrite py_bound_nonneg by done.
  destruct (decide (Z.to_nat b ≤ length l)%nat).
  - by rewrite Nat.min_l.
  - rewrite Nat.min_r by lia. by rewrite !take_ge by lia.
Qed.

Lemma py_slice_nonneg {A} (l : list A) (a n : Z) :
  0 ≤ a → 0 ≤ n →
  py_slice l a (a + n) = take (Z.to_nat n) (drop (Z.to_nat a) l).
Proof.
  intros Ha Hn. unfold py_slice. rewrite !py_bound_nonneg by lia.
  destruct (decide (Z.to_nat a ≤ length l)%nat).
  - rewrite (Nat.min_l (Z.to_nat a)) by lia.
    destruct (decide (Z.to_nat (a + n) ≤ length l)%nat).
    + rewrite Nat.min_l by lia. f_equal. lia.
    + rewrite Nat.min_r by lia.
      rewrite !take_ge; [done | rewrite length_drop; lia..].
  - rewrite !drop_ge by lia. by rewrite !take_nil.
Qed.

Lemma py_index_nonneg {A} (l : list A) (i : Z) (x : A) :
  0 ≤ i → l !! Z.to_nat i = Some x → py_index l i = Ok x.
Proof.
  intros Hi Hx. unfold py_index.
  destruct (decide (i < 0)) as [|_]; [lia|]. cbv zeta.
  destruct (decide (i < 0)) as [|_]; [lia|]. by rewrite Hx.
Qed.

Lemma pop_last_snoc {A} (l : list A) (x : A) :
  pop_last (l ++ [x]) = Ok (x, l).
Proof.
  unfold pop_last. rewrite last_snoc, length_app. simpl.
  rewrite take_app_length'; [done | lia].
Qed.

Lemma pop_last_Ok {A} (l : list A) :
  (1 ≤ length l)%nat → ∃ x l', l = l' ++ [x] ∧ pop_last l = Ok (x, l').
Proof.
  intros Hl. destruct l as [|y l] using rev_ind; [simpl in Hl; lia|].
  exists y, l. split; [done | apply pop_last_snoc].
Qed.

Lemma pop_at_Ok {A} (i : nat) (l : list A) :
  (i < length l)%nat →
  ∃ x, l !! i = Some x ∧ pop_at i l = Ok (x, delete i l).
Proof.
  intros Hi. destruct (lookup_lt_is_Some_2 l i Hi) as [x Hx].
  exists x. unfold pop_at. by rewrite Hx.
Qed.

Lemma delete_perm {A} (i : nat) (l : list A) (x : A) :
  l !! i = Some x → l ≡ₚ x :: delete i l.
Proof. intros Hx. by apply delete_Permutation. Qed.

(** The model does raise where the source would: the results proved
    below to be [Ok] are not so by construction. *)
Example py_index_out_of_range : py_index [1; 2] 2 = Raise IndexError.
Proof. reflexivity. Qed.

Example py_index_negative : py_index [1; 2] (-1) = Ok 2.
Proof. reflexivity. Qed.

Example build_match_short :
  build_match [(mk 1 "M", mk 2 "F")] 0 = Raise IndexError.
Proof. reflexivity. Qed.

Example leftover_loop_no_fuel :
  leftover_loop 0 ∅ [mk 1 "M"; mk 2 "M"] [] = Raise OutOfFuel.
Proof. reflexivity. Qed.

Example score_short_team :
  _score_candidate [Match 1 [mk 1 "M"] [mk 2 "F"; mk 3 "F"]] ∅ ∅ ∅
    = Raise IndexError.
Proof. reflexivity. Qed.

Example py_prefix_negative : py_prefix [1; 2; 3; 4; 5] (-4) = [1].
Proof. reflexivity. Qed.

(** * The stable sort *)

Section sort_facts.
Context {A : Type} (key : A → Z).

Lemma insert_by_perm (x : A) (l : list A) : insert_by key x l ≡ₚ x :: l.
Proof.
  induction l as [|y l IH]; simpl; [done|].
  case_decide; [done|]. rewrite IH. apply Permutation_swap.
Qed.

Lemma sort_by_perm (l : list A) : sort_by key l ≡ₚ l.
Proof.
  induction l as [|x l IH]; simpl; [done|].
  by rewrite insert_by_perm, IH.
Qed.

Lemma sort_by_length (l : list A) : length (sort_by key l) = length l.
Proof. by rewrite sort_by_perm. Qed.

Lemma insert_by_sorted (x : A) (l : list A) :
  StronglySorted (key_le key) l → StronglySorted (key_le key) (insert_by key x l).
Proof.
  induction 1 as [|y l Hs IH Hall]; simpl.
  - repeat constructor.
  - case_decide as Hxy.
    + constructor; [by constructor|].
      constructor; [done|].
      eapply Forall_impl; [exact Hall|].
      unfold key_le. intros z Hz. lia.
    + constructor; [done|].
      rewrite insert_by_perm. constructor; [unfold key_le; lia | done].
Qed.

Lemma sort_by_sorted (l : list A) : StronglySorted (key_le key) (sort_by key l).
Proof.
  induction l as [|x l IH]; simpl; [constructor|].
  by apply insert_by_sorted.
Qed.

(** Stability: elements with equal keys keep their relative order. *)
Lemma insert_by_stable (k : Z) (x : A) (l : list A) :
  filter (λ y, key y = k) (insert_by key x l) = filter (λ y, key y = k) (x :: l).
Proof.
  induction l as [|y l IH]; simpl; [done|].
  case_decide as Hxy; [done|].
  rewrite filter_cons, IH, !filter_cons.
  repeat case_decide; try done; lia.
Qed.

Lemma sort_by_stable (k : Z) (l : list A) :
  filter (λ y, key y = k) (sort_by key l) = filter (λ y, key y = k) l.
Proof.
  induction l as [|x l IH]; simpl; [done|].
  by rewrite insert_by_stable, !filter_cons, IH.
Qed.

Lemma sorted_take_drop (n : nat) (l : list A) (x y : A) :
  StronglySorted (key_le key) l → x ∈ take n l → y ∈ drop n l → key x ≤ key y.
Proof.
  intros Hs. revert n. induction Hs as [|z l Hs IH Hall]; intros n Hx Hy.
  - rewrite take_nil in Hx. by apply elem_of_nil in Hx.
  - destruct n as [|n]; simpl in *; [by apply elem_of_nil in Hx|].
    apply elem_of_cons in Hx as [->|Hx]; [|by eapply IH].
    rewrite Forall_forall in Hall. apply Hall.
    revert Hy. apply subseteq_drop.
Qed.

Lemma sort_by_stable_sort (l : list A) : stable_sort_of key l (sort_by key l).
Proof.
  split_and!; [apply sort_by_perm | apply sort_by_sorted |].
  intros k. apply sort_by_stable.
Qed.

End sort_facts.

(** * The player selector *)

Section select_facts.
Context `{Shuffler}.

Lemma select_players_all (g : rng) (players : list player) (needed : Z)
    (games_played : gmap Z Z) :
  Z.of_nat (length players) ≤ needed →
  _select_players g players needed games_played = (players, g).
Proof. intros Hle. unfold _select_players. by rewrite decide_True. Qed.

Lemma select_players_some (g : rng) (players : list player) (needed : Z)
    (games_played : gmap Z Z) :
  needed < Z.of_nat (length players) →
  _select_players g players needed games_played =
    (py_prefix (sort_by (games_of games_played) (shuffle g players).1) needed,
     (shuffle g players).2).
Proof.
  intros Hlt. unfold _select_players. rewrite decide_False by lia.
  by destruct (shuffle g players).
Qed.

(** The selection is always a sub-multiset of the players supplied. *)
Lemma select_players_submseteq (g : rng) (players : list player) (needed : Z)
    (games_played : gmap Z Z) :
  (_select_players g players needed games_played).1 ⊆+ players.
Proof.
  destruct (decide (Z.of_nat (length players) ≤ needed)).
  - by rewrite select_players_all.
  - rewrite select_players_some by lia. simpl. unfold py_prefix.
    etrans; [apply sublist_submseteq, sublist_take|].
    by rewrite sort_by_perm, shuffle_perm.
Qed.

Lemma select_players_length (g : rng) (players : list player) (needed : Z)
    (games_played : gmap Z Z) :
  0 ≤ needed →
  length (_select_players g players needed games_played).1 =
    (Z.to_nat needed `min` length players)%nat.
Proof.
  intros Hn. destruct (decide (Z.of_nat (length players) ≤ needed)).
  - rewrite select_players_all by done. simpl. lia.
  - rewrite select_players_some by lia. simpl.
    rewrite py_prefix_nonneg by done.
    by rewrite length_take, sort_by_length, shuffle_perm.
Qed.

(** C5. [_select_players] returns the whole list when it has at most
    [needed] players.  Otherwise, for a headcount [needed >= 0], it returns
    exactly [needed] players: the first [needed] of the stable ascending
    sort by games played (missing entries count 0) of a shuffle of the
    list; every selected player has played at most as many games as every
    player left out. *)
Theorem select_players_spec (g : rng) (players : list player) (needed : Z)
    (games_played : gmap Z Z) :
  0 ≤ needed →
  let out := (_select_players g players needed games_played).1 in
  (Z.of_nat (length players) ≤ needed → out = players) ∧
  (needed < Z.of_nat (length players) →
   ∃ shuffled sorted rest,
     shuffled = (shuffle g players).1 ∧ shuffled ≡ₚ players ∧
     stable_sort_of (games_of games_played) shuffled sorted ∧
     sorted = sort_by (games_of games_played) shuffled ∧
     out = take (Z.to_nat needed) sorted ∧
     Z.of_nat (length out) = needed ∧
     out ++ rest ≡ₚ players ∧
     ∀ p q, p ∈ out → q ∈ rest →
            games_of games_played p ≤ games_of games_played q).
Proof.
  intros Hn out. split.
  - intros Hle. unfold out. by rewrite select_players_all.
  - intros Hlt.
    set (shuffled := (shuffle g players).1).
    set (sorted := sort_by (games_of games_played) shuffled).
    assert (out = take (Z.to_nat needed) sorted) as Hout.
    { unfold out. rewrite select_players_some by done. simpl.
      by rewrite py_prefix_nonneg. }
    exists shuffled, sorted, (drop (Z.to_nat needed) sorted).
    split_and!; try done.
    + apply shuffle_perm.
    + apply sort_by_stable_sort.
    + rewrite Hout, length_take. unfold sorted.
      rewrite sort_by_length. unfold shuffled. rewrite shuffle_perm. lia.
    + rewrite Hout, take_drop. unfold sorted.
      rewrite sort_by_perm. apply shuffle_perm.
    + intros p q Hp Hq. rewrite Hout in Hp.
      eapply sorted_take_drop; [apply sort_by_sorted | exact Hp | exact Hq].
Qed.

End select_facts.

Lemma select_players_spec_witness :
  0 ≤ 2 ∧
  let out := (@_select_players draw_shuffler [1; 0; 2]%nat four 2
                {[1 := 3; 3 := 1]}).1 in
  (Z.of_nat (length four) ≤ 2 → out = four) ∧
  (2 < Z.of_nat (length four) →
   ∃ shuffled sorted rest,
     shuffled = (@shuffle draw_shuffler _ [1; 0; 2]%nat four).1 ∧
     shuffled ≡ₚ four ∧
     stable_sort_of (games_of {[1 := 3; 3 := 1]}) shuffled sorted ∧
     sorted = sort_by (games_of {[1 := 3; 3 := 1]}) shuffled ∧
     out = take (Z.to_nat 2) sorted ∧
     Z.of_nat (length out) = 2 ∧
     out ++ rest ≡ₚ four ∧
     ∀ p q, p ∈ out → q ∈ rest →
            games_of {[1 := 3; 3 := 1]} p ≤ games_of {[1 := 3; 3 := 1]} q).
Proof.
  split; [lia|].
  apply (@select_players_spec draw_shuffler [1; 0; 2]%nat four 2
           {[1 := 3; 3 := 1]}). lia.
Defined.

(** * The candidate scorer *)

Lemma two_a_side_inv (m : court_match) :
  two_a_side m → ∃ a b c d, team1 m = [a; b] ∧ team2 m = [c; d].
Proof.
  intros [H1 H2].
  destruct (team1 m) as [|a [|b [|]]]; simplify_eq/=.
  destruct (team2 m) as [|c [|d [|]]]; simplify_eq/=.
  by exists a, b, c, d.
Qed.

Lemma score_match_spec (past : gset (Z * Z)) (past_opponents : gmap (Z * Z) Z)
    (wins : gmap Z Z) (score : Z) (m : court_match) :
  two_a_side m →
  score_match past past_opponents wins score m =
    Ok (score + match_score_spec past past_opponents wins m).
Proof.
  intros (a & b & c & d & H1 & H2)%two_a_side_inv.
  unfold score_match, match_score_spec. rewrite H1, H2.
  unfold partnership_penalty, mixed_bonus, team_key, opponent_penalty,
    team_wins, repeat_penalty, gender_bonus. simpl.
  repeat case_decide; simpl; f_equal; lia.
Qed.

Lemma score_loop_spec (past : gset (Z * Z)) (past_opponents : gmap (Z * Z) Z)
    (wins : gmap Z Z) (ms : list court_match) (score : Z) :
  Forall two_a_side ms →
  score_loop past past_opponents wins score ms =
    Ok (score + candidate_score_spec past past_opponents wins ms).
Proof.
  intros Hms. revert score.
  induction Hms as [|m ms Hm _ IH]; intros score; simpl.
  - f_equal. lia.
  - rewrite score_match_spec by done. simpl. rewrite IH. f_equal. lia.
Qed.



(** * The pair former *)

Lemma submseteq_NoDup {A} (l k : list A) : NoDup l → k ⊆+ l → NoDup k.
Proof.
  intros Hl [k' Hk]%submseteq_Permutation.
  rewrite Hk in Hl. by apply NoDup_app in Hl as [? _].
Qed.

Lemma NoDup_fmap_eq {A B} (f : A → B) (l : list A) (x y : A) :
  NoDup (f <$> l) → x ∈ l → y ∈ l → f x = f y → x = y.
Proof.
  induction l as [|z l IH]; intros Hnd Hx Hy Hxy.
  - by apply elem_of_nil in Hx.
  - rewrite fmap_cons in Hnd. apply NoDup_cons in Hnd as [Hz Hnd].
    apply elem_of_cons in Hx as [->|Hx]; apply elem_of_cons in Hy as [->|Hy].
    + done.
    + exfalso. apply Hz. rewrite Hxy. by apply list_elem_of_fmap_2.
    + exfalso. apply Hz. rewrite <- Hxy. by apply list_elem_of_fmap_2.
    + by apply IH.
Qed.

Lemma flat_pairs_app (ps qs : list (player * player)) :
  flat_pairs (ps ++ qs) = flat_pairs ps ++ flat_pairs qs.
Proof. unfold flat_pairs. by rewrite fmap_app, concat_app. Qed.

Lemma flat_pairs_length (ps : list (player * player)) :
  length (flat_pairs ps) = (2 * length ps)%nat.
Proof.
  induction ps as [|p ps IH]; [done|].
  change (flat_pairs (p :: ps)) with (p.1 :: p.2 :: flat_pairs ps).
  simpl length. rewrite IH. lia.
Qed.

Lemma flat_pairs_perm (ps : list (player * player)) :
  flat_pairs ps ≡ₚ ps.*1 ++ ps.*2.
Proof.
  induction ps as [|[a b] ps IH]; [done|].
  unfold flat_pairs in *. simpl. rewrite IH.
  by rewrite <- Permutation_middle.
Qed.

Section third_pass.
Context (past : gset (Z * Z)).

Lemma scan_partner_bound (p1 : player) (leftover : list player) (i j : nat) :
  scan_partner past p1 i leftover = Some j → (i ≤ j < i + length leftover)%nat.
Proof.
  revert i. induction leftover as [|p2 l IH]; intros i; simpl; [done|].
  case_decide.
  - intros [= <-]. lia.
  - intros Hj%IH. lia.
Qed.

Lemma best_idx_bound (p1 : player) (leftover : list player) :
  (1 ≤ length leftover)%nat → (best_idx past p1 leftover < length leftover)%nat.
Proof.
  intros Hl. unfold best_idx.
  destruct (scan_partner past p1 0 leftover) as [j|] eqn:Hj; simpl; [|lia].
  apply scan_partner_bound in Hj. lia.
Qed.

(** The loop pairs off [length leftover / 2] couples of the pool; any fuel
    of at least half the pool's size is enough. *)
Lemma leftover_loop_spec (fuel : nat) (leftover : list player)
    (acc : list (player * player)) :
  (length leftover ≤ 2 * fuel + 1)%nat →
  ∃ ps, leftover_loop fuel past leftover acc = Ok (acc ++ ps) ∧
        length ps = (length leftover `div` 2)%nat ∧
        flat_pairs ps ⊆+ leftover.
Proof.
  revert leftover acc.
  induction fuel as [|fuel IH]; intros leftover acc Hfuel.
  - exists []. cbn [leftover_loop]. rewrite decide_False by lia.
    rewrite app_nil_r, (Nat.div_small (length leftover)) by lia.
    split_and!; [done..|apply submseteq_nil_l].
  - cbn [leftover_loop]. case_decide as Hlen.
    + destruct (pop_last_Ok leftover) as (p1 & l1 & -> & ->); [lia|].
      rewrite length_app in Hlen, Hfuel. cbn [length] in Hlen, Hfuel.
      destruct (pop_at_Ok (best_idx past p1 l1) l1) as (p2 & Hp2 & Hpop).
      { apply best_idx_bound. lia. }
      cbn [mbind res_bind]. rewrite Hpop. cbn [mbind res_bind].
      assert (length (delete (best_idx past p1 l1) l1) = (length l1 - 1)%nat)
        as Hdel.
      { rewrite length_delete; [done | by eexists]. }
      destruct (IH (delete (best_idx past p1 l1) l1) (acc ++ [(p1, p2)]))
        as (ps & -> & Hps & Hsub); [lia|].
      exists ((p1, p2) :: ps). split_and!.
      * by rewrite <- app_assoc.
      * cbn [length]. rewrite Hps, Hdel, length_app. cbn [length].
        replace (length l1 + 1)%nat with (length l1 - 1 + 1 * 2)%nat by lia.
        rewrite Nat.div_add by lia. lia.
      * change (flat_pairs ((p1, p2) :: ps)) with (p1 :: p2 :: flat_pairs ps).
        rewrite <- Permutation_cons_append.
        apply submseteq_skip.
        rewrite (delete_perm _ _ _ Hp2). by apply submseteq_skip.
    + exists []. rewrite app_nil_r, (Nat.div_small (length leftover)) by lia.
      split_and!; [done..|apply submseteq_nil_l].
Qed.

End third_pass.

Section mixed_passes.
Context (males females : list player).

Lemma pass_inv_init : pass_inv males females (PairState [] ∅ ∅).
Proof.
  unfold pass_inv. simpl.
  split_and!; try done; try constructor; set_solver.
Qed.

Lemma add_pair_inv (st : pair_state) (m f : player) :
  pass_inv males females st → m ∈ males → id m ∉ used_m st →
  f ∈ females → id f ∉ used_f st → pass_inv males females (add_pair st m f).
Proof.
  intros (Hm & Hf & Hnm & Hnf & Hsm & Hsf) Hmin Hmu Hfin Hfu.
  unfold pass_inv, add_pair. simpl.
  rewrite !fmap_app. simpl. rewrite !list_to_set_app_L. simpl.
  rewrite <- Hm, <- Hf.
  split_and!.
  - set_solver.
  - set_solver.
  - apply NoDup_app. split_and!; [done| |apply NoDup_singleton].
    intros x Hx ->%list_elem_of_singleton. apply Hmu. rewrite Hm.
    by apply elem_of_list_to_set.
  - apply NoDup_app. split_and!; [done| |apply NoDup_singleton].
    intros x Hx ->%list_elem_of_singleton. apply Hfu. rewrite Hf.
    by apply elem_of_list_to_set.
  - set_solver.
  - set_solver.
Qed.

Lemma fold_pass_inv (step : pair_state → player → pair_state)
    (ms : list player) (st : pair_state) :
  pairing_step females step → pass_inv males females st → ms ⊆ males → NoDup (id <$> ms) →
  (∀ m, m ∈ ms → id m ∉ used_m st) →
  pass_inv males females (foldl step st ms).
Proof.
  intros Hstep. revert st.
  induction ms as [|m ms IH]; intros st Hinv Hsub Hnd Hfresh; simpl; [done|].
  rewrite fmap_cons in Hnd. apply NoDup_cons in Hnd as [Hm Hnd].
  destruct (Hstep st m) as [->|(f & Hf & Hfu & ->)].
  - apply IH; [done | set_solver | done | set_solver].
  - apply IH; [|set_solver|done|].
    + apply add_pair_inv; [done | set_solver | set_solver | done | done].
    + intros m' Hm'. simpl.
      assert (id m' ≠ id m).
      { intros Heq. apply Hm. rewrite <- Heq. by apply list_elem_of_fmap_2. }
      assert (id m' ∉ used_m st) by set_solver.
      set_solver.
Qed.

End mixed_passes.

Lemma scan_novel_Some (past : gset (Z * Z)) (m f : player) (used : gset Z)
    (females : list player) :
  scan_novel past m used females = Some f →
  f ∈ females ∧ (id f ∉ used) ∧ (pair_key (id m) (id f) ∉ past).
Proof.
  induction females as [|f' fs IH]; simpl; [done|].
  repeat case_decide.
  - intros (? & ? & ?)%IH. set_solver.
  - intros [= ->]. set_solver.
  - intros (? & ? & ?)%IH. set_solver.
Qed.

Lemma scan_any_Some (f : player) (used : gset Z) (females : list player) :
  scan_any used females = Some f → f ∈ females ∧ id f ∉ used.
Proof.
  induction females as [|f' fs IH]; simpl; [done|].
  case_decide.
  - intros (? & ?)%IH. set_solver.
  - intros [= ->]. set_solver.
Qed.

Lemma first_pass_pairing (past : gset (Z * Z)) (females : list player) :
  pairing_step females (first_pass_step past females).
Proof.
  intros st m. unfold first_pass_step.
  destruct (scan_novel past m (used_f st) females) as [f|] eqn:Hscan;
    [|by left].
  apply scan_novel_Some in Hscan as (? & ? & _). right. by exists f.
Qed.

Lemma unused_subseteq (used : gset Z) (l : list player) : unused used l ⊆ l.
Proof. intros x. unfold unused. rewrite list_elem_of_filter. tauto. Qed.

Lemma second_pass_pairing (used : gset Z) (females : list player) :
  pairing_step females (second_pass_step (unused used females)).
Proof.
  intros st m. unfold second_pass_step.
  destruct (scan_any (used_f st) (unused used females)) as [f|] eqn:Hscan;
    [|by left].
  apply scan_any_Some in Hscan as [Hin ?]. right. exists f.
  split_and!; [by apply unused_subseteq in Hin | done | done].
Qed.

(** The players of a group with distinct ids split into those already
    paired and those still unused. *)
Lemma used_unused_perm (l l' : list player) :
  NoDup (id <$> l) → NoDup (id <$> l') → l' ⊆ l →
  l' ++ unused (list_to_set (id <$> l')) l ≡ₚ l.
Proof.
  intros Hl Hl' Hsub. apply NoDup_Permutation.
  - apply NoDup_app. split_and!.
    + by eapply NoDup_fmap_1.
    + intros x Hx. unfold unused. rewrite list_elem_of_filter.
      intros [Hnot _]. apply Hnot. apply elem_of_list_to_set.
      by apply list_elem_of_fmap_2.
    + apply NoDup_filter. by eapply NoDup_fmap_1.
  - by eapply NoDup_fmap_1.
  - intros x. rewrite elem_of_app. unfold unused. rewrite list_elem_of_filter.
    split.
    + intros [Hx|[_ Hx]]; [by apply Hsub | done].
    + intros Hx.
      destruct (decide (id x ∈ (list_to_set (id <$> l') : gset Z)))
        as [Hin|Hout]; [|by right].
      left. apply elem_of_list_to_set, list_elem_of_fmap in Hin
        as (y & Hxy & Hy).
      assert (x = y) as ->; [|done].
      eapply NoDup_fmap_eq; [exact Hl | done | by apply Hsub | done].
Qed.

Lemma unused_NoDup (used : gset Z) (l : list player) :
  NoDup (id <$> l) → NoDup (id <$> unused used l).
Proof.
  intros Hl. eapply submseteq_NoDup; [exact Hl|].
  apply fmap_submseteq, sublist_submseteq, sublist_filter.
Qed.

Lemma unused_fresh (used : gset Z) (l : list player) (p : player) :
  p ∈ unused used l → id p ∉ used.
Proof. unfold unused. rewrite list_elem_of_filter. tauto. Qed.

Section form_pairs_facts.
Context `{Shuffler}.

Lemma form_pairs_unfold (g : rng) (males females : list player)
    (past : gset (Z * Z)) :
  ∃ ms fs lo g',
    ms ≡ₚ males ∧ fs ≡ₚ females ∧
    lo ≡ₚ leftover_of (mixed_state past ms fs) ms fs ∧
    _form_pairs g males females past =
      ps ← leftover_loop (length lo) past lo (pairs (mixed_state past ms fs));
      Ok (ps, g').
Proof.
  unfold _form_pairs.
  pose proof (shuffle_perm _ g males) as Hms.
  destruct (shuffle g males) as [ms g1].
  pose proof (shuffle_perm _ g1 females) as Hfs.
  destruct (shuffle g1 females) as [fs g2].
  fold (mixed_state past ms fs).
  fold (leftover_of (mixed_state past ms fs) ms fs).
  pose proof (shuffle_perm _ g2 (leftover_of (mixed_state past ms fs) ms fs))
    as Hlo.
  destruct (shuffle g2 (leftover_of (mixed_state past ms fs) ms fs))
    as [lo g3].
  by exists ms, fs, lo, g3.
Qed.

(** The pair former never raises: on every input it returns the pairs of
    the mixed passes followed by those of the leftover loop. *)
Lemma form_pairs_Ok (g : rng) (males females : list player)
    (past : gset (Z * Z)) :
  ∃ ps g', _form_pairs g males females past = Ok (ps, g').
Proof.
  destruct (form_pairs_unfold g males females past)
    as (ms & fs & lo & g' & _ & _ & _ & ->).
  destruct (leftover_loop_spec past (length lo) lo
              (pairs (mixed_state past ms fs))) as (ps & -> & _); [lia|].
  by eexists _, _.
Qed.

Lemma mixed_state_inv (past : gset (Z * Z)) (males females : list player) :
  NoDup (id <$> males) → pass_inv males females (mixed_state past males females).
Proof.
  intros Hm. unfold mixed_state.
  set (st1 := foldl (first_pass_step past females) (PairState [] ∅ ∅) males).
  assert (pass_inv males females st1) as Hinv1.
  { apply fold_pass_inv; [apply first_pass_pairing | apply pass_inv_init
                          | done | done | set_solver]. }
  apply fold_pass_inv; [apply second_pass_pairing | done | apply unused_subseteq
                        | by apply unused_NoDup |].
  intros m. apply unused_fresh.
Qed.

(** When the ids within each group are distinct, the pairs use each player
    at most once and all but at most one of them. *)
Lemma form_pairs_spec (g : rng) (males females : list player)
    (past : gset (Z * Z)) :
  NoDup (id <$> males) → NoDup (id <$> females) →
  ∃ ps g', _form_pairs g males females past = Ok (ps, g') ∧
           flat_pairs ps ⊆+ males ++ females ∧
           length ps = ((length males + length females) `div` 2)%nat.
Proof.
  intros Hm Hf.
  destruct (form_pairs_unfold g males females past)
    as (ms & fs & lo & g' & Hms & Hfs & Hlo & ->).
  rewrite <- Hms in Hm. rewrite <- Hfs in Hf.
  destruct (mixed_state_inv past ms fs Hm)
    as (Hum & Huf & Hnm & Hnf & Hsm & Hsf).
  set (st := mixed_state past ms fs) in *.
  assert ((pairs st).*1 ++ unused (used_m st) ms ≡ₚ ms) as Hsplit_m.
  { rewrite Hum. by apply used_unused_perm. }
  assert ((pairs st).*2 ++ unused (used_f st) fs ≡ₚ fs) as Hsplit_f.
  { rewrite Huf. by apply used_unused_perm. }
  assert (flat_pairs (pairs st) ++ lo ≡ₚ males ++ females) as Hall.
  { rewrite Hlo, flat_pairs_perm, <- Hms, <- Hfs. unfold leftover_of.
    etrans; [|apply Permutation_app; [exact Hsplit_m | exact Hsplit_f]].
    rewrite <- !app_assoc. apply Permutation_app_head.
    rewrite !app_assoc. apply Permutation_app_tail.
    apply Permutation_app_comm. }
  destruct (leftover_loop_spec past (length lo) lo (pairs st))
    as (ps & -> & Hlen & Hsub); [lia|].
  exists (pairs st ++ ps), g'. split_and!; [done| |].
  - rewrite flat_pairs_app, <- Hall. by apply submseteq_skips_l.
  - apply Permutation_length in Hall.
    rewrite !length_app, flat_pairs_length in Hall.
    rewrite length_app, Hlen, <- Hall.
    replace (2 * length (pairs st) + length lo)%nat
      with (length lo + length (pairs st) * 2)%nat by lia.
    rewrite Nat.div_add by lia. lia.
Qed.

End form_pairs_facts.

(** * The candidate generator *)

Lemma build_match_Ok (ps : list (player * player)) (k : nat)
    (t1 t2 : player * player) :
  ps !! (2 * k)%nat = Some t1 → ps !! S (2 * k) = Some t2 →
  build_match ps (Z.of_nat k) =
    Ok (Match (Z.of_nat k + 1) [t1.1; t1.2] [t2.1; t2.2]).
Proof.
  intros H1 H2. unfold build_match.
  rewrite (py_index_nonneg ps (Z.of_nat k * 2) t1); [|lia|].
  2: { rewrite <- H1. f_equal. lia. }
  cbn [mbind res_bind].
  rewrite (py_index_nonneg ps (Z.of_nat k * 2 + 1) t2); [done|lia|].
  rewrite <- H2. f_equal. lia.
Qed.

Lemma build_matches_spec (ps : list (player * player)) (n k : nat)
    (acc : list court_match) :
  (2 * (k + n) ≤ length ps)%nat →
  build_matches ps (seqZ (Z.of_nat k) (Z.of_nat n)) acc =
    Ok (acc ++ group_pairs (Z.of_nat k + 1)
                  (take (2 * n) (drop (2 * k) ps))).
Proof.
  revert k acc. induction n as [|n IH]; intros k acc Hlen.
  - simpl. by rewrite app_nil_r.
  - rewrite seqZ_cons by lia. cbn [build_matches].
    destruct (lookup_lt_is_Some_2 ps (2 * k)) as [t1 Ht1]; [lia|].
    destruct (lookup_lt_is_Some_2 ps (S (2 * k))) as [t2 Ht2]; [lia|].
    rewrite (build_match_Ok ps k t1 t2) by done. cbn [mbind res_bind].
    replace (Z.succ (Z.of_nat k)) with (Z.of_nat (S k)) by lia.
    replace (Z.pred (Z.of_nat (S n))) with (Z.of_nat n) by lia.
    rewrite IH by lia. f_equal. rewrite <- app_assoc. f_equal.
    rewrite (drop_S ps t1 (2 * k)) by done.
    rewrite (drop_S ps t2 (S (2 * k))) by done.
    replace (2 * S n)%nat with (S (S (2 * n))) by lia.
    replace (2 * S k)%nat with (S (S (2 * k))) by lia.
    cbn [take group_pairs app]. do 2 f_equal. lia.
Qed.

Lemma group_pairs_length (c : Z) (ps : list (player * player)) (n : nat) :
  length ps = (2 * n)%nat → length (group_pairs c ps) = n.
Proof.
  revert c ps. induction n as [|n IH]; intros c ps Hlen.
  - by destruct ps.
  - destruct ps as [|t1 [|t2 ps]]; simpl in Hlen; try lia.
    simpl. f_equal. apply IH. lia.
Qed.

Lemma group_pairs_players (c : Z) (ps : list (player * player)) (n : nat) :
  length ps = (2 * n)%nat → round_players (group_pairs c ps) = flat_pairs ps.
Proof.
  revert c ps. induction n as [|n IH]; intros c ps Hlen.
  - by destruct ps.
  - destruct ps as [|t1 [|t2 ps]]; simpl in Hlen; try lia.
    unfold round_players, flat_pairs in *. simpl. do 4 f_equal.
    apply IH. lia.
Qed.

Lemma group_pairs_two_a_side (c : Z) (ps : list (player * player)) :
  Forall two_a_side (group_pairs c ps).
Proof.
  revert c. induction ps as [ps IH] using (induction_ltof1 _ length).
  unfold ltof in IH. intros c.
  destruct ps as [|t1 [|t2 ps]]; simpl; try constructor.
  - by split.
  - apply IH. simpl. lia.
Qed.

(** The court numbers of [group_pairs c] are [c], [c + 1], ... *)
Lemma group_pairs_courts (c : Z) (ps : list (player * player)) (n : nat) :
  length ps = (2 * n)%nat →
  court <$> group_pairs c ps = seqZ c (Z.of_nat n).
Proof.
  revert c ps. induction n as [|n IH]; intros c ps Hlen.
  - by destruct ps.
  - destruct ps as [|t1 [|t2 ps]]; simpl in Hlen; try lia.
    rewrite seqZ_cons by lia. simpl. f_equal.
    etrans; [apply (IH (c + 1) ps); lia|]. f_equal; lia.
Qed.

Lemma py_range_to_nat (n : Z) : py_range n = seqZ 0 (Z.of_nat (Z.to_nat n)).
Proof. unfold py_range, seqZ. by rewrite Nat2Z.id. Qed.

Section candidate_facts.
Context `{Shuffler}.

(** The two outcomes of one candidate generation, on every input. *)
Lemma generate_candidate_cases (g : rng) (players : list player)
    (num_matches : Z) (past : gset (Z * Z)) :
  ∃ ps g2,
    _form_pairs (shuffle g players).2 (males_of (shuffle g players).1)
      (females_of (shuffle g players).1) past = Ok (ps, g2) ∧
    ((Z.of_nat (length ps) < num_matches * 2 ∧
      _generate_candidate g players num_matches past = Ok (None, g2)) ∨
     (num_matches * 2 ≤ Z.of_nat (length ps) ∧
      _generate_candidate g players num_matches past =
        Ok (Some (group_pairs 1 (take (Z.to_nat (num_matches * 2))
                                      (shuffle g2 ps).1)),
            (shuffle g2 ps).2))).
Proof.
  unfold _generate_candidate.
  destruct (shuffle g players) as [shuffled g1]. simpl.
  fold (males_of shuffled). fold (females_of shuffled).
  destruct (form_pairs_Ok g1 (males_of shuffled) (females_of shuffled) past)
    as (ps & g2 & Hps).
  exists ps, g2. split; [done|]. rewrite Hps. cbn [mbind res_bind].
  case_decide as Hlen; [left; split; [lia | done]|].
  right. split; [lia|].
  pose proof (shuffle_perm _ g2 ps) as Hsp.
  destruct (shuffle g2 ps) as [sps g3]. simpl in *.
  rewrite py_range_to_nat.
  pose proof (build_matches_spec sps (Z.to_nat num_matches) 0 []) as Hb.
  change (Z.of_nat 0) with 0 in Hb. rewrite Hb by (rewrite Hsp; lia).
  cbn [mbind res_bind app drop].
  by replace (2 * Z.to_nat num_matches)%nat
    with (Z.to_nat (num_matches * 2)) by lia.
Qed.

(** C7. [_generate_candidate] returns [None] exactly when the pair former
    produced fewer than [2 * num_matches] pairs.  Otherwise it returns the
    matches obtained by grouping two at a time the first [2 * num_matches]
    pairs of the shuffled pair list (the pairs beyond those are dropped),
    with courts numbered from 1; for a match count [num_matches >= 0] these
    are exactly [num_matches] matches. *)
Theorem generate_candidate_spec (g : rng) (players : list player)
    (num_matches : Z) (past : gset (Z * Z)) :
  ∃ ps g2,
    _form_pairs (shuffle g players).2 (males_of (shuffle g players).1)
      (females_of (shuffle g players).1) past = Ok (ps, g2) ∧
    ((∃ g', _generate_candidate g players num_matches past = Ok (None, g'))
     ↔ Z.of_nat (length ps) < num_matches * 2) ∧
    (num_matches * 2 ≤ Z.of_nat (length ps) →
     ∃ ms,
       _generate_candidate g players num_matches past =
         Ok (Some ms, (shuffle g2 ps).2) ∧
       (shuffle g2 ps).1 ≡ₚ ps ∧
       ms = group_pairs 1 (take (Z.to_nat (num_matches * 2)) (shuffle g2 ps).1) ∧
       (0 ≤ num_matches → Z.of_nat (length ms) = num_matches)).
Proof.
  destruct (generate_candidate_cases g players num_matches past)
    as (ps & g2 & Hps & Hcases).
  exists ps, g2. split; [done|].
  destruct Hcases as [[Hlt Hgc]|[Hge Hgc]]; rewrite Hgc.
  - split; [|lia]. split; [done|]. intros _. by eexists.
  - split.
    + split; [|lia]. by intros [g' [=]].
    + intros _. eexists. split_and!; [done | apply shuffle_perm | done |].
      intros Hn. rewrite (group_pairs_length _ _ (Z.to_nat num_matches)); [lia|].
      rewrite length_take, shuffle_perm. lia.
Qed.

End candidate_facts.

Lemma generate_candidate_spec_witness :
  ∃ ps g2,
    @_form_pairs draw_shuffler (@shuffle draw_shuffler _ [2; 1]%nat four).2
      (males_of (@shuffle draw_shuffler _ [2; 1]%nat four).1)
      (females_of (@shuffle draw_shuffler _ [2; 1]%nat four).1) ∅
      = Ok (ps, g2) ∧
    ((∃ g', @_generate_candidate draw_shuffler [2; 1]%nat four 1 ∅
              = Ok (None, g'))
     ↔ Z.of_nat (length ps) < 1 * 2) ∧
    (1 * 2 ≤ Z.of_nat (length ps) →
     ∃ ms,
       @_generate_candidate draw_shuffler [2; 1]%nat four 1 ∅ =
         Ok (Some ms, (@shuffle draw_shuffler _ g2 ps).2) ∧
       (@shuffle draw_shuffler _ g2 ps).1 ≡ₚ ps ∧
       ms = group_pairs 1 (take (Z.to_nat (1 * 2))
                                (@shuffle draw_shuffler _ g2 ps).1) ∧
       (0 ≤ 1 → Z.of_nat (length ms) = 1)).
Proof. apply (@generate_candidate_spec draw_shuffler [2; 1]%nat four 1 ∅). Defined.

(** * The fallback assigner *)

Lemma fallback_loop_spec (shuffled : list player) (n k : nat)
    (acc : list court_match) :
  (4 * (k + n) ≤ length shuffled)%nat →
  fallback_loop shuffled (seqZ (Z.of_nat k) (Z.of_nat n)) acc =
    acc ++ group_fours (Z.of_nat k + 1) (take (4 * n) (drop (4 * k) shuffled)).
Proof.
  revert k acc. induction n as [|n IH]; intros k acc Hlen.
  - simpl. by rewrite app_nil_r.
  - rewrite seqZ_cons by lia. cbn [fallback_loop].
    rewrite (py_slice_nonneg shuffled (Z.of_nat k * 4) 4) by lia.
    replace (Z.to_nat (Z.of_nat k * 4)) with (4 * k)%nat by lia.
    change (Z.to_nat 4) with 4%nat.
    replace (Z.succ (Z.of_nat k)) with (Z.of_nat (S k)) by lia.
    replace (Z.pred (Z.of_nat (S n))) with (Z.of_nat n) by lia.
    pose proof (length_drop shuffled (4 * k)) as Hdrop.
    assert (drop (4 * S k) shuffled = drop 4 (drop (4 * k) shuffled)) as Hnext.
    { rewrite drop_drop. f_equal. lia. }
    specialize (IH (S k)). rewrite Hnext in IH.
    destruct (drop (4 * k) shuffled) as [|a [|b [|x [|y rest]]]];
      simpl in Hdrop; try lia.
    rewrite decide_False by (simpl; lia).
    rewrite IH by lia. rewrite <- app_assoc.
    replace (4 * S n)%nat with (S (S (S (S (4 * n))))) by lia.
    cbn [take drop group_fours app]. do 2 f_equal.
    f_equal; lia.
Qed.

Lemma group_fours_length (c : Z) (l : list player) (n : nat) :
  length l = (4 * n)%nat → length (group_fours c l) = n.
Proof.
  revert c l. induction n as [|n IH]; intros c l Hlen.
  - by destruct l.
  - destruct l as [|a [|b [|x [|y l]]]]; simpl in Hlen; try lia.
    simpl. f_equal. apply IH. lia.
Qed.

Lemma group_fours_players (c : Z) (l : list player) (n : nat) :
  length l = (4 * n)%nat → round_players (group_fours c l) = l.
Proof.
  revert c l. induction n as [|n IH]; intros c l Hlen.
  - by destruct l.
  - destruct l as [|a [|b [|x [|y l]]]]; simpl in Hlen; try lia.
    unfold round_players in *. simpl. do 4 f_equal. apply IH. lia.
Qed.

Lemma group_fours_courts (c : Z) (l : list player) (n : nat) :
  length l = (4 * n)%nat → court <$> group_fours c l = seqZ c (Z.of_nat n).
Proof.
  revert c l. induction n as [|n IH]; intros c l Hlen.
  - by destruct l.
  - destruct l as [|a [|b [|x [|y l]]]]; simpl in Hlen; try lia.
    rewrite seqZ_cons by lia. simpl. f_equal.
    etrans; [apply (IH (c + 1) l); lia|]. f_equal; lia.
Qed.

Lemma group_fours_two_a_side (c : Z) (l : list player) :
  Forall two_a_side (group_fours c l).
Proof.
  revert c. induction l as [l IH] using (induction_ltof1 _ length).
  unfold ltof in IH. intros c.
  destruct l as [|a [|b [|x [|y l]]]]; simpl; try constructor.
  - by split.
  - apply IH. simpl. lia.
Qed.

Section fallback_facts.
Context `{Shuffler}.

Lemma generate_fallback_eq (g : rng) (players : list player) (num_matches : Z) :
  num_matches * 4 ≤ Z.of_nat (length players) →
  _generate_fallback g players num_matches =
    (group_fours 1 (take (Z.to_nat (num_matches * 4)) (shuffle g players).1),
     (shuffle g players).2).
Proof.
  intros Hlen. unfold _generate_fallback.
  pose proof (shuffle_perm _ g players) as Hsp.
  destruct (shuffle g players) as [shuffled g1]. simpl in *.
  rewrite py_range_to_nat.
  pose proof (fallback_loop_spec shuffled (Z.to_nat num_matches) 0 []) as Hf.
  change (Z.of_nat 0) with 0 in Hf. rewrite Hf by (rewrite Hsp; lia).
  cbn [app drop].
  by replace (4 * Z.to_nat num_matches)%nat
    with (Z.to_nat (num_matches * 4)) by lia.
Qed.

(** C8. Given at least [num_matches * 4] players ([num_matches >= 0]),
    [_generate_fallback] returns exactly [num_matches] matches: the
    consecutive groups of four of one shuffle of the pool, the first two
    players of a group as team1 and the last two as team2, on courts
    1, 2, ...; neither history nor gender is consulted.  With distinct
    ids no player is used twice. *)
Theorem generate_fallback_spec (g : rng) (players : list player)
    (num_matches : Z) :
  0 ≤ num_matches →
  num_matches * 4 ≤ Z.of_nat (length players) →
  NoDup (id <$> players) →
  let shuffled := (shuffle g players).1 in
  let ms := (_generate_fallback g players num_matches).1 in
  shuffled ≡ₚ players ∧
  ms = group_fours 1 (take (Z.to_nat (num_matches * 4)) shuffled) ∧
  Z.of_nat (length ms) = num_matches ∧
  court <$> ms = seqZ 1 num_matches ∧
  Forall two_a_side ms ∧
  round_players ms = take (Z.to_nat (num_matches * 4)) shuffled ∧
  NoDup (id <$> round_players ms).
Proof.
  intros Hn Hlen Hnd shuffled ms.
  assert (shuffled ≡ₚ players) as Hsp by apply shuffle_perm.
  assert (ms = group_fours 1 (take (Z.to_nat (num_matches * 4)) shuffled))
    as Hms.
  { unfold ms. by rewrite generate_fallback_eq. }
  assert (length (take (Z.to_nat (num_matches * 4)) shuffled)
          = (4 * Z.to_nat num_matches)%nat) as Htake.
  { rewrite length_take, Hsp. lia. }
  assert (round_players ms = take (Z.to_nat (num_matches * 4)) shuffled)
    as Hrp.
  { rewrite Hms. by eapply group_fours_players. }
  split_and!; try done.
  - rewrite Hms, (group_fours_length _ _ (Z.to_nat num_matches)); [lia|done].
  - rewrite Hms, (group_fours_courts _ _ (Z.to_nat num_matches)) by done.
    f_equal. lia.
  - rewrite Hms. apply group_fours_two_a_side.
  - rewrite Hrp. eapply submseteq_NoDup; [exact Hnd|].
    apply fmap_submseteq. rewrite <- Hsp. apply submseteq_take.
Qed.

End fallback_facts.

Lemma generate_fallback_spec_witness :
  0 ≤ 2 ∧ 2 * 4 ≤ Z.of_nat (length eight) ∧ NoDup (id <$> eight) ∧
  let shuffled := (@shuffle draw_shuffler _ [3; 1; 4]%nat eight).1 in
  let ms := (@_generate_fallback draw_shuffler [3; 1; 4]%nat eight 2).1 in
  shuffled ≡ₚ eight ∧
  ms = group_fours 1 (take (Z.to_nat (2 * 4)) shuffled) ∧
  Z.of_nat (length ms) = 2 ∧
  court <$> ms = seqZ 1 2 ∧
  Forall two_a_side ms ∧
  round_players ms = take (Z.to_nat (2 * 4)) shuffled ∧
  NoDup (id <$> round_players ms).
Proof.
  assert (NoDup (id <$> eight)) as Hnd by decide_closed.
  assert (2 * 4 ≤ Z.of_nat (length eight)) as Hlen by (simpl; lia).
  split_and!; [lia | exact Hlen | exact Hnd |].
  apply (@generate_fallback_spec draw_shuffler [3; 1; 4]%nat eight 2);
    [lia | exact Hlen | exact Hnd].
Defined.

(** * The attempt loop *)

Lemma keep_best_best_of (score : list court_match → Z)
    (cs : list (list court_match)) (b : best) (c : option (list court_match)) :
  best_of score cs b →
  best_of score (cs ++ option_list c) (keep_best score b c).
Proof.
  intros Hb. destruct c as [c|]; simpl; [|by rewrite app_nil_r].
  unfold best_of in *. destruct b as [[c0|] bs]; simpl in *.
  - destruct Hb as [-> (i & Hi & Hmax & Hfirst)]. simpl.
    case_bool_decide as Hgt; simpl.
    + split; [done|]. exists (length cs). split_and!.
      * by rewrite list_lookup_middle.
      * intros j c' [Hj|[_ Hj]]%lookup_app_Some.
        -- specialize (Hmax j c' Hj). lia.
        -- apply list_lookup_singleton_Some in Hj as [_ <-]. lia.
      * intros j c' Hlt Hj. rewrite lookup_app_l in Hj by done.
        specialize (Hmax j c' Hj). lia.
    + split; [done|]. exists i. split_and!.
      * by apply lookup_app_l_Some.
      * intros j c' [Hj|[_ Hj]]%lookup_app_Some.
        -- by apply (Hmax j).
        -- apply list_lookup_singleton_Some in Hj as [_ <-]. lia.
      * intros j c' Hlt Hj. apply (Hfirst j); [done|].
        apply lookup_lt_Some in Hi. by rewrite lookup_app_l in Hj by lia.
  - destruct Hb as [-> ->]. simpl. split; [done|].
    exists 0%nat. split_and!; [done| |lia].
    intros j c' Hj. apply list_lookup_singleton_Some in Hj as [_ <-]. lia.
Qed.

Lemma foldl_keep_best (score : list court_match → Z)
    (t : list (option (list court_match))) :
  best_of score (omap (λ c, c) t) (foldl (keep_best score) (Best None NegInf) t).
Proof.
  induction t as [|c t IH] using rev_ind; [done|].
  rewrite foldl_app, omap_app. simpl.
  replace (omap (λ c, c) [c]) with (option_list c) by by destruct c.
  by apply keep_best_best_of.
Qed.

Section attempt_facts.
Context `{Shuffler}.
Context (playing : list player) (max_matches : Z) (past : gset (Z * Z))
  (past_opponents : gmap (Z * Z) Z) (wins : gmap Z Z).

Lemma generate_candidate_Ok (g : rng) :
  ∃ c g', _generate_candidate g playing max_matches past = Ok (c, g') ∧
          ∀ ms, c = Some ms → Forall two_a_side ms.
Proof.
  destruct (generate_candidate_cases g playing max_matches past)
    as (ps & g2 & _ & [[_ ->]|[_ ->]]); eexists _, _; split; try done.
  intros ms [= <-]. apply group_pairs_two_a_side.
Qed.

Lemma attempt_spec (b : best) (g : rng) :
  ∃ c g', _generate_candidate g playing max_matches past = Ok (c, g') ∧
          attempt playing max_matches past past_opponents wins (b, g) =
            Ok (keep_best (score_of past past_opponents wins) b c, g').
Proof.
  destruct (generate_candidate_Ok g) as (c & g' & Hgc & Hshape).
  exists c, g'. split; [done|]. unfold attempt. rewrite Hgc.
  cbn [mbind res_bind]. destruct c as [ms|]; [|done].
  unfold _score_candidate. rewrite score_loop_spec by by apply Hshape.
  cbn [mbind res_bind keep_best]. unfold score_of.
  rewrite Z.add_0_l. by destruct (score_gt _ _).
Qed.

(** The loop never raises; it runs its [n] iterations and folds
    [keep_best] over the candidates in arrival order. *)
Lemma attempt_loop_spec (n : nat) (b : best) (g : rng) :
  ∃ g', attempt_loop n playing max_matches past past_opponents wins (b, g) =
          Ok (foldl (keep_best (score_of past past_opponents wins)) b (candidate_trace playing max_matches past n g), g') ∧
        length (candidate_trace playing max_matches past n g) = n.
Proof.
  revert b g. induction n as [|n IH]; intros b g; [by eexists|].
  destruct (attempt_spec b g) as (c & g1 & Hgc & Hat).
  cbn [attempt_loop candidate_trace]. rewrite Hat, Hgc.
  cbn [mbind res_bind foldl].
  destruct (IH (keep_best (score_of past past_opponents wins) b c) g1) as (g' & -> & Hlen).
  exists g'. split; [done|]. simpl. by rewrite Hlen.
Qed.

Lemma candidate_trace_Forall (P : list court_match → Prop) (n : nat) (g : rng) :
  (∀ g0 c g1,
     _generate_candidate g0 playing max_matches past = Ok (Some c, g1) → P c) →
  Forall P (valid_candidates playing max_matches past n g).
Proof.
  intros HP. unfold valid_candidates. revert g.
  induction n as [|n IH]; intros g; simpl; [constructor|].
  destruct (_generate_candidate g playing max_matches past)
    as [[[c|] g1]|e] eqn:Hgc; simpl; [|done|constructor].
  constructor; [by eapply HP | done].
Qed.

Lemma earliest_max_elem_of (score : list court_match → Z)
    (cs : list (list court_match)) (c : list court_match) :
  earliest_max score cs c → c ∈ cs.
Proof. intros (i & Hi & _). by eapply list_elem_of_lookup_2. Qed.

(** Whatever holds of every candidate holds of the best one kept. *)
Lemma attempt_loop_best (P : list court_match → Prop) (n : nat) (g : rng) :
  (∀ g0 c g1,
     _generate_candidate g0 playing max_matches past = Ok (Some c, g1) → P c) →
  ∃ b g', attempt_loop n playing max_matches past past_opponents wins
            (Best None NegInf, g) = Ok (b, g') ∧
          best_of (score_of past past_opponents wins) (valid_candidates playing max_matches past n g) b ∧
          ∀ ms, best_matches b = Some ms → P ms.
Proof.
  intros HP.
  destruct (attempt_loop_spec n (Best None NegInf) g) as (g' & Hloop & _).
  eexists _, g'. split; [exact Hloop|].
  pose proof (foldl_keep_best (score_of past past_opponents wins) (candidate_trace playing max_matches past n g)) as Hbest.
  split; [exact Hbest|]. intros ms Hms.
  unfold best_of in Hbest. rewrite Hms in Hbest. destruct Hbest as [_ Hmax].
  apply earliest_max_elem_of in Hmax.
  pose proof (candidate_trace_Forall P n g HP) as Hall.
  rewrite Forall_forall in Hall. by apply Hall.
Qed.

End attempt_facts.

(** * Candidates use each player at most once *)

Lemma filter_ids_NoDup (P : player → Prop) `{∀ p, Decision (P p)}
    (l : list player) :
  NoDup (id <$> l) → NoDup (id <$> filter P l).
Proof.
  intros Hl. eapply submseteq_NoDup; [exact Hl|].
  apply fmap_submseteq, sublist_submseteq, sublist_filter.
Qed.

Lemma males_females_submseteq (l : list player) :
  males_of l ++ females_of l ⊆+ l.
Proof.
  unfold males_of, females_of.
  induction l as [|p l IH]; [done|].
  rewrite !filter_cons. repeat case_decide; try congruence.
  - simpl. by apply submseteq_skip.
  - rewrite <- Permutation_middle. by apply submseteq_skip.
  - by apply submseteq_cons.
Qed.


Lemma flat_pairs_Permutation (ps qs : list (player * player)) :
  ps ≡ₚ qs → flat_pairs ps ≡ₚ flat_pairs qs.
Proof.
  induction 1 as [|p ps qs _ IH|p q ps|ps qs rs _ IH1 _ IH2].
  - done.
  - change (flat_pairs (p :: ps)) with ([p.1; p.2] ++ flat_pairs ps).
    change (flat_pairs (p :: qs)) with ([p.1; p.2] ++ flat_pairs qs).
    by rewrite IH.
  - change (flat_pairs (q :: p :: ps))
      with ([q.1; q.2] ++ [p.1; p.2] ++ flat_pairs ps).
    change (flat_pairs (p :: q :: ps))
      with ([p.1; p.2] ++ [q.1; q.2] ++ flat_pairs ps).
    rewrite !app_assoc. apply Permutation_app_tail, Permutation_app_comm.
  - by etrans.
Qed.

Lemma flat_pairs_take (k : nat) (ps : list (player * player)) :
  flat_pairs (take k ps) ⊆+ flat_pairs ps.
Proof.
  rewrite <- (take_drop k ps) at 2. rewrite flat_pairs_app.
  by apply submseteq_inserts_r.
Qed.

Section candidate_players.
Context `{Shuffler}.

(** The shape of every candidate returned: teams of two, [num_matches]
    matches (none for a negative count) on courts 1, 2, ... *)
Lemma candidate_shape (g g' : rng) (players : list player) (num_matches : Z)
    (past : gset (Z * Z)) (c : list court_match) :
  _generate_candidate g players num_matches past = Ok (Some c, g') →
  Forall two_a_side c ∧ length c = Z.to_nat num_matches ∧
  court <$> c = seqZ 1 (Z.of_nat (Z.to_nat num_matches)).
Proof.
  intros Hgc.
  destruct (generate_candidate_cases g players num_matches past)
    as (ps & g2 & _ & [[_ Heq]|[Hlen Heq]]); rewrite Heq in Hgc; [done|].
  injection Hgc as <- _.
  assert (length (take (Z.to_nat (num_matches * 2)) (shuffle g2 ps).1)
          = (2 * Z.to_nat num_matches)%nat) as Htake.
  { rewrite length_take, shuffle_perm. lia. }
  split_and!.
  - apply group_pairs_two_a_side.
  - by eapply group_pairs_length.
  - by eapply group_pairs_courts.
Qed.

(** With distinct ids, the players of a candidate are drawn from the pool
    without repetition. *)
Lemma candidate_players_submseteq (g g' : rng) (players : list player)
    (num_matches : Z) (past : gset (Z * Z)) (c : list court_match) :
  NoDup (id <$> players) →
  _generate_candidate g players num_matches past = Ok (Some c, g') →
  round_players c ⊆+ players.
Proof.
  intros Hnd Hgc.
  destruct (generate_candidate_cases g players num_matches past)
    as (ps & g2 & Hps & [[_ Heq]|[Hlen Heq]]); rewrite Heq in Hgc; [done|].
  injection Hgc as <- _.
  pose proof (shuffle_perm _ g players) as Hsh.
  destruct (shuffle g players) as [sh g1]. simpl in *.
  rewrite <- Hsh in Hnd.
  destruct (form_pairs_spec g1 (males_of sh) (females_of sh) past)
    as (ps' & g2' & Hps' & Hsub & _);
    [by apply filter_ids_NoDup..|].
  rewrite Hps in Hps'. injection Hps' as <- <-.
  rewrite (group_pairs_players _ _ (Z.to_nat num_matches)).
  2: { rewrite length_take, shuffle_perm. lia. }
  etrans; [apply flat_pairs_take|].
  rewrite (flat_pairs_Permutation _ ps) by apply shuffle_perm.
  etrans; [exact Hsub|]. rewrite <- Hsh. apply males_females_submseteq.
Qed.


End candidate_players.

(** * The orchestrator *)

Section round_facts.
Context `{Shuffler}.

Lemma playing_submseteq (g : rng) (players : list player) (max_matches : Z)
    (games_played : gmap Z Z) (skip_selection : bool) :
  (playing_set g players max_matches games_played skip_selection).1 ⊆+ players.
Proof.
  unfold playing_set. destruct skip_selection; [done|].
  apply select_players_submseteq.
Qed.

Lemma playing_enough (g : rng) (players : list player) (num_courts : Z)
    (games_played : gmap Z Z) (skip_selection : bool) :
  match_count num_courts players * 4 ≤
    Z.of_nat (length (playing_set g players (match_count num_courts players)
                        games_played skip_selection).1).
Proof.
  assert (match_count num_courts players * 4 ≤ Z.of_nat (length players))
    as Hle.
  { unfold match_count.
    pose proof (Z.mul_div_le (Z.of_nat (length players)) 4). lia. }
  unfold playing_set. destruct skip_selection; [done|].
  destruct (decide (0 ≤ match_count num_courts players)); [|lia].
  rewrite select_players_length by lia. lia.
Qed.

Lemma generate_round_trivial (g : rng) (players : list player)
    (num_courts : Z) (past : gset (Z * Z)) (past_opponents : gmap (Z * Z) Z)
    (games_played wins : gmap Z Z) (num_attempts : Z) (skip_selection : bool) :
  (length players < 4)%nat ∨ match_count num_courts players = 0 →
  generate_round g players num_courts past past_opponents games_played wins
    num_attempts skip_selection = Ok ([], g).
Proof.
  intros Hcase. unfold generate_round. fold (match_count num_courts players).
  case_decide; [done|]. case_decide; [done|]. by destruct Hcase.
Qed.

Lemma generate_round_unfold (g : rng) (players : list player)
    (num_courts : Z) (past : gset (Z * Z)) (past_opponents : gmap (Z * Z) Z)
    (games_played wins : gmap Z Z) (num_attempts : Z) (skip_selection : bool) :
  (4 ≤ length players)%nat → match_count num_courts players ≠ 0 →
  let max_matches := match_count num_courts players in
  let pg := playing_set g players max_matches games_played skip_selection in
  generate_round g players num_courts past past_opponents games_played wins
    num_attempts skip_selection =
    '(b, g2) ← attempt_loop (Z.to_nat num_attempts) pg.1 max_matches past
                 past_opponents wins (Best None NegInf, pg.2);
    match best_matches b with
    | None => Ok (_generate_fallback g2 pg.1 max_matches)
    | Some ms => Ok (ms, g2)
    end.
Proof.
  intros Hlen Hmm max_matches pg. unfold generate_round.
  fold (match_count num_courts players). fold max_matches.
  rewrite decide_False by lia. rewrite decide_False by done.
  fold (playing_set g players max_matches games_played skip_selection).
  fold pg. destruct pg as [playing g1]. simpl.
  destruct (attempt_loop _ _ _ _ _ _ _) as [[b g2]|e]; [|done].
  cbn [mbind res_bind]. destruct (best_matches b); [done|].
  by destruct (_generate_fallback g2 playing max_matches).
Qed.

Lemma fallback_shape (g : rng) (players : list player) (num_matches : Z) :
  num_matches * 4 ≤ Z.of_nat (length players) →
  round_shape players num_matches (_generate_fallback g players num_matches).1.
Proof.
  intros Hlen. rewrite generate_fallback_eq by done. simpl.
  assert (length (take (Z.to_nat (num_matches * 4)) (shuffle g players).1)
          = (4 * Z.to_nat num_matches)%nat) as Htake.
  { rewrite length_take, shuffle_perm. lia. }
  split_and!.
  - apply group_fours_two_a_side.
  - by eapply group_fours_length.
  - by eapply group_fours_courts.
  - intros _. rewrite (group_fours_players _ _ (Z.to_nat num_matches)) by done.
    rewrite <- (shuffle_perm _ g players) at 2. apply submseteq_take.
Qed.

Lemma candidate_round_shape (g g' : rng) (players : list player)
    (num_matches : Z) (past : gset (Z * Z)) (c : list court_match) :
  _generate_candidate g players num_matches past = Ok (Some c, g') →
  round_shape players num_matches c.
Proof.
  intros Hgc. destruct (candidate_shape _ _ _ _ _ _ Hgc) as (? & ? & ?).
  split_and!; try done. intros Hnd.
  by eapply candidate_players_submseteq.
Qed.

(** Past the two early returns, the round is the best candidate kept by
    the attempt loop, or the fallback assignment when none was valid; in
    both cases it has the shape of a round over the playing set. *)
Lemma generate_round_result (g : rng) (players : list player)
    (num_courts : Z) (past : gset (Z * Z)) (past_opponents : gmap (Z * Z) Z)
    (games_played wins : gmap Z Z) (num_attempts : Z) (skip_selection : bool) :
  (4 ≤ length players)%nat → match_count num_courts players ≠ 0 →
  let max_matches := match_count num_courts players in
  let pg := playing_set g players max_matches games_played skip_selection in
  ∃ b g2 ms g',
    attempt_loop (Z.to_nat num_attempts) pg.1 max_matches past
      past_opponents wins (Best None NegInf, pg.2) = Ok (b, g2) ∧
    best_of (score_of past past_opponents wins)
      (valid_candidates pg.1 max_matches past (Z.to_nat num_attempts) pg.2) b ∧
    generate_round g players num_courts past past_opponents games_played wins
      num_attempts skip_selection = Ok (ms, g') ∧
    (best_matches b = Some ms ∨
     best_matches b = None ∧ ms = (_generate_fallback g2 pg.1 max_matches).1) ∧
    round_shape pg.1 max_matches ms.
Proof.
  intros Hlen Hmm max_matches pg.
  rewrite generate_round_unfold by done. fold max_matches. fold pg.
  destruct (attempt_loop_best pg.1 max_matches past past_opponents wins
              (round_shape pg.1 max_matches) (Z.to_nat num_attempts) pg.2)
    as (b & g2 & Hloop & Hbest & HP).
  { intros g0 c g1. apply candidate_round_shape. }
  rewrite Hloop. cbn [mbind res_bind].
  destruct (best_matches b) as [ms|] eqn:Hb.
  - exists b, g2, ms, g2. split_and!; try done; [by left | by apply HP].
  - exists b, g2, (_generate_fallback g2 pg.1 max_matches).1,
      (_generate_fallback g2 pg.1 max_matches).2.
    split_and!; try done.
    + by destruct (_generate_fallback g2 pg.1 max_matches).
    + by right.
    + apply fallback_shape. apply playing_enough.
Qed.

End round_facts.

(** * Properties of the rounds returned *)

Lemma NoDup_round_match (ms : list court_match) :
  NoDup (id <$> round_players ms) →
  Forall (λ m, NoDup (id <$> match_players m)) ms.
Proof.
  unfold round_players. induction ms as [|m ms IH]; [constructor|].
  simpl. rewrite fmap_app. intros (Hm & _ & Hms)%NoDup_app.
  constructor; [done | by apply IH].
Qed.

Lemma round_shape_distinct (pool players : list player) (n : Z)
    (ms : list court_match) :
  NoDup (id <$> players) → pool ⊆+ players →
  round_shape pool n ms → distinct_round players ms.
Proof.
  intros Hnd Hpool (Htwo & _ & _ & Hsub).
  assert (NoDup (id <$> pool)) as Hndp.
  { eapply submseteq_NoDup; [exact Hnd | by apply fmap_submseteq]. }
  specialize (Hsub Hndp).
  assert (NoDup (id <$> round_players ms)) as Hndr.
  { eapply submseteq_NoDup; [exact Hndp | by apply fmap_submseteq]. }
  split_and!; [|done|by etrans].
  apply NoDup_round_match in Hndr.
  rewrite Forall_forall in Htwo, Hndr. apply Forall_forall.
  intros m Hm. split; [by apply Htwo | by apply Hndr].
Qed.

Section round_theorems.
Context `{Shuffler}.


(** The result is empty exactly on the early returns and when the match
    count is negative. *)
Lemma generate_round_empty (g : rng) (players : list player)
    (num_courts : Z) (past : gset (Z * Z)) (past_opponents : gmap (Z * Z) Z)
    (games_played wins : gmap Z Z) (num_attempts : Z) (skip_selection : bool) :
  ∃ ms g',
    generate_round g players num_courts past past_opponents games_played wins
      num_attempts skip_selection = Ok (ms, g') ∧
    length ms = (if decide (length players < 4)%nat then 0%nat
                 else Z.to_nat (match_count num_courts players)) ∧
    court <$> ms = seqZ 1 (Z.of_nat (length ms)).
Proof.
  destruct (decide (length players < 4)%nat) as [Hlt|Hge].
  { eexists [], g. by rewrite generate_round_trivial by by left. }
  destruct (decide (match_count num_courts players = 0)) as [Hz|Hnz].
  { eexists [], g. rewrite generate_round_trivial by by right.
    by rewrite Hz. }
  destruct (generate_round_result g players num_courts past past_opponents
              games_played wins num_attempts skip_selection)
    as (b & g2 & ms & g' & _ & _ & Hgr & _ & _ & Hcount & Hcourt & _);
    [lia | done |].
  exists ms, g'. by rewrite Hcount.
Qed.


(** C3. A non-empty result of [generate_round] has exactly
    [min(num_courts, len(players) // 4)] matches, and its courts are
    numbered 1, 2, ..., match count, in list order. *)
Theorem generate_round_count (g g' : rng) (players : list player)
    (num_courts : Z) (past : gset (Z * Z)) (past_opponents : gmap (Z * Z) Z)
    (games_played wins : gmap Z Z) (num_attempts : Z) (skip_selection : bool)
    (ms : list court_match) :
  generate_round g players num_courts past past_opponents games_played wins
    num_attempts skip_selection = Ok (ms, g') →
  ms ≠ [] →
  Z.of_nat (length ms) = Z.min num_courts (Z.of_nat (length players) `div` 4) ∧
  court <$> ms = seqZ 1 (Z.min num_courts (Z.of_nat (length players) `div` 4)).
Proof.
  intros Hgr Hne.
  destruct (generate_round_empty g players num_courts past past_opponents
              games_played wins num_attempts skip_selection)
    as (ms' & g'' & Hgr' & Hlen & Hcourt).
  rewrite Hgr in Hgr'. injection Hgr' as <- <-.
  fold (match_count num_courts players).
  assert (length ms ≠ 0%nat) as Hpos.
  { intros Hz. by apply Hne, nil_length_inv. }
  case_decide; [done|].
  assert (Z.of_nat (length ms) = match_count num_courts players) as Heq by lia.
  split; [done|]. by rewrite Hcourt, Heq.
Qed.


End round_theorems.

Section selection_theorems.
Context `{Shuffler}.



End selection_theorems.

(** * Closed instances *)



Lemma generate_round_count_witness :
  ∃ ms g',
    @generate_round draw_shuffler [3; 1; 4; 1; 5]%nat eight 2 ∅ ∅ ∅ ∅ 3 false
      = Ok (ms, g') ∧
    ms ≠ [] ∧
    Z.of_nat (length ms) = Z.min 2 (Z.of_nat (length eight) `div` 4) ∧
    court <$> ms = seqZ 1 (Z.min 2 (Z.of_nat (length eight) `div` 4)).
Proof.
  eexists _, _.
  split; [vm_compute; reflexivity|].
  split; [discriminate|].
  eapply (@generate_round_count draw_shuffler [3; 1; 4; 1; 5]%nat _ eight 2
            ∅ ∅ ∅ ∅ 3 false); [vm_compute; reflexivity | discriminate].
Defined.




(** * Further properties of the engine *)

(** ** The fallback assigner on every input *)

Lemma fallback_loop_general (shuffled : list player) (n k : nat)
    (acc : list court_match) :
  fallback_loop shuffled (seqZ (Z.of_nat k) (Z.of_nat n)) acc =
    acc ++ group_fours (Z.of_nat k + 1) (take (4 * n) (drop (4 * k) shuffled)).
Proof.
  revert k acc. induction n as [|n IH]; intros k acc.
  - simpl. by rewrite app_nil_r.
  - rewrite seqZ_cons by lia. cbn [fallback_loop].
    rewrite (py_slice_nonneg shuffled (Z.of_nat k * 4) 4) by lia.
    replace (Z.to_nat (Z.of_nat k * 4)) with (4 * k)%nat by lia.
    change (Z.to_nat 4) with 4%nat.
    replace (Z.succ (Z.of_nat k)) with (Z.of_nat (S k)) by lia.
    replace (Z.pred (Z.of_nat (S n))) with (Z.of_nat n) by lia.
    assert (drop (4 * S k) shuffled = drop 4 (drop (4 * k) shuffled)) as Hnext.
    { rewrite drop_drop. f_equal. lia. }
    specialize (IH (S k)). rewrite Hnext in IH.
    replace (4 * S n)%nat with (S (S (S (S (4 * n))))) by lia.
    destruct (drop (4 * k) shuffled) as [|a [|b [|x [|y rest]]]];
      try (rewrite decide_True by (simpl; lia); simpl; by rewrite app_nil_r).
    rewrite decide_False by (simpl; lia).
    rewrite IH. rewrite <- app_assoc.
    cbn [take drop group_fours app]. do 2 f_equal.
    f_equal; lia.
Qed.

Lemma group_fours_general (c : Z) (l : list player) :
  length (group_fours c l) = (length l `div` 4)%nat ∧
  court <$> group_fours c l = seqZ c (Z.of_nat (length l `div` 4)) ∧
  round_players (group_fours c l) = take (4 * (length l `div` 4)) l.
Proof.
  revert c. induction l as [l IH] using (induction_ltof1 _ length).
  unfold ltof in IH. intros c.
  destruct l as [|a [|b [|x [|y l]]]]; try done.
  destruct (IH l) with (c := c + 1) as (Hlen & Hcourt & Hplayers);
    [simpl; lia|].
  assert (length (a :: b :: x :: y :: l) `div` 4 = S (length l `div` 4))%nat
    as Hdiv.
  { cbn [length].
    replace (S (S (S (S (length l))))) with (length l + 1 * 4)%nat by lia.
    rewrite Nat.div_add by lia. lia. }
  rewrite Hdiv. cbn [group_fours]. split_and!.
  - cbn [length]. by rewrite Hlen.
  - rewrite seqZ_cons by lia. rewrite fmap_cons. cbn [court]. f_equal.
    rewrite Hcourt. f_equal; lia.
  - replace (4 * S (length l `div` 4))%nat
      with (S (S (S (S (4 * (length l `div` 4)))))) by lia.
    unfold round_players in *. rewrite fmap_cons. cbn [concat take].
    rewrite Hplayers. done.
Qed.

Section fallback_general.
Context `{Shuffler}.

(** X1. On every input [_generate_fallback] returns the groups of four of
    the first [4 * num_matches] players of the shuffle: when fewer than
    [4 * num_matches] players are supplied the loop breaks at the first
    short group, leaving [len(players) // 4] matches; a non-positive
    [num_matches] gives none.  The courts are still 1, 2, ... and the
    players are drawn from the pool without repetition. *)
Theorem generate_fallback_general (g : rng) (players : list player)
    (num_matches : Z) :
  let ms := (_generate_fallback g players num_matches).1 in
  ms = group_fours 1 (take (4 * Z.to_nat num_matches) (shuffle g players).1) ∧
  length ms = (Z.to_nat num_matches `min` (length players `div` 4))%nat ∧
  court <$> ms = seqZ 1 (Z.of_nat (length ms)) ∧
  Forall two_a_side ms ∧
  round_players ms ⊆+ players.
Proof.
  intros ms.
  assert (ms = group_fours 1
                 (take (4 * Z.to_nat num_matches) (shuffle g players).1))
    as Hms.
  { unfold ms, _generate_fallback.
    destruct (shuffle g players) as [shuffled g1]. simpl.
    rewrite py_range_to_nat.
    pose proof (fallback_loop_general shuffled (Z.to_nat num_matches) 0 [])
      as Hf.
    change (Z.of_nat 0) with 0 in Hf. by rewrite Hf. }
  destruct (group_fours_general 1
              (take (4 * Z.to_nat num_matches) (shuffle g players).1))
    as (Hlen & Hcourt & Hplayers).
  rewrite <- Hms in Hlen, Hcourt, Hplayers.
  assert (length ms = (Z.to_nat num_matches `min` (length players `div` 4))%nat)
    as Hcount.
  { rewrite Hlen, length_take, shuffle_perm.
    destruct (decide (4 * Z.to_nat num_matches ≤ length players)%nat).
    - rewrite Nat.min_l by done.
      replace (4 * Z.to_nat num_matches)%nat
        with (Z.to_nat num_matches * 4)%nat by lia.
      rewrite Nat.div_mul by lia.
      assert (Z.to_nat num_matches ≤ length players `div` 4)%nat; [|lia].
      apply Nat.div_le_lower_bound; lia.
    - rewrite Nat.min_r by lia.
      assert (length players `div` 4 < Z.to_nat num_matches)%nat; [|lia].
      apply Nat.Div0.div_lt_upper_bound; lia. }
  split_and!; [done | done | | |].
  - by rewrite Hcourt, Hlen.
  - rewrite Hms. apply group_fours_two_a_side.
  - rewrite Hplayers.
    etrans; [apply submseteq_take|].
    etrans; [apply submseteq_take|]. by rewrite shuffle_perm.
Qed.

End fallback_general.

(** ** The selector on every headcount *)

Section select_general.
Context `{Shuffler}.

(** The selection is a prefix of the sorted shuffle, or the whole list. *)
Lemma select_players_split (g : rng) (players : list player) (needed : Z)
    (games_played : gmap Z Z) :
  ∃ rest, (_select_players g players needed games_played).1 ++ rest ≡ₚ players ∧
          ∀ p q, p ∈ (_select_players g players needed games_played).1 →
                 q ∈ rest →
                 games_of games_played p ≤ games_of games_played q.
Proof.
  destruct (decide (Z.of_nat (length players) ≤ needed)) as [Hle|Hgt].
  - rewrite select_players_all by done. simpl.
    exists []. rewrite app_nil_r. split; [done|].
    intros p q _ Hq. by apply elem_of_nil in Hq.
  - rewrite select_players_some by lia. simpl. unfold py_prefix.
    set (sorted := sort_by (games_of games_played) (shuffle g players).1).
    exists (drop (py_bound (length sorted) needed) sorted). split.
    + rewrite take_drop. unfold sorted.
      rewrite sort_by_perm. apply shuffle_perm.
    + intros p q Hp Hq.
      eapply sorted_take_drop; [apply sort_by_sorted | exact Hp | exact Hq].
Qed.

(** X2. Whatever [needed] is, [_select_players] splits the players into
    those selected and the rest, keeps nobody twice, and never selects a
    player who has played more games than one left out.  The number
    selected is [len(players)] when [len(players) <= needed], [needed]
    when [0 <= needed < len(players)], and [max(0, len(players) + needed)]
    for a negative [needed] (the slice then drops players from the end of
    the sorted list). *)
Theorem select_players_general (g : rng) (players : list player) (needed : Z)
    (games_played : gmap Z Z) :
  let out := (_select_players g players needed games_played).1 in
  let len := Z.of_nat (length players) in
  Z.of_nat (length out) =
    (if decide (len ≤ needed) then len
     else if decide (0 ≤ needed) then needed
     else Z.max 0 (len + needed)) ∧
  ∃ rest, out ++ rest ≡ₚ players ∧
          ∀ p q, p ∈ out → q ∈ rest →
                 games_of games_played p ≤ games_of games_played q.
Proof.
  intros out len. split; [|apply select_players_split].
  unfold out, len.
  destruct (decide (Z.of_nat (length players) ≤ needed)) as [Hle|Hgt].
  - by rewrite select_players_all.
  - rewrite select_players_some by lia. simpl. unfold py_prefix.
    rewrite length_take, sort_by_length, shuffle_perm. unfold py_bound.
    repeat case_decide; lia.
Qed.

End select_general.

(** ** Edge cases of the orchestrator *)

Section round_edges.
Context `{Shuffler}.

(** X3. Without a court ([num_courts <= 0], negative counts included)
    [generate_round] returns the empty round, whatever the players. *)
Theorem generate_round_no_courts (g : rng) (players : list player)
    (num_courts : Z) (past : gset (Z * Z)) (past_opponents : gmap (Z * Z) Z)
    (games_played wins : gmap Z Z) (num_attempts : Z) (skip_selection : bool) :
  num_courts ≤ 0 →
  ∃ g', generate_round g players num_courts past past_opponents games_played
          wins num_attempts skip_selection = Ok ([], g').
Proof.
  intros Hcourts.
  destruct (generate_round_empty g players num_courts past past_opponents
              games_played wins num_attempts skip_selection)
    as (ms & g' & Hgr & Hlen & _).
  exists g'. rewrite Hgr. do 2 f_equal. apply nil_length_inv.
  rewrite Hlen. case_decide; [done|]. unfold match_count. lia.
Qed.

(** X4. With an attempt budget [num_attempts <= 0] no candidate is
    generated: past the early returns, [generate_round] is the fallback
    assignment over the playing set, with [min(num_courts, len // 4)]
    matches. *)
Theorem generate_round_no_attempts (g : rng) (players : list player)
    (num_courts : Z) (past : gset (Z * Z)) (past_opponents : gmap (Z * Z) Z)
    (games_played wins : gmap Z Z) (num_attempts : Z) (skip_selection : bool) :
  (4 ≤ length players)%nat → 1 ≤ num_courts → num_attempts ≤ 0 →
  let max_matches := match_count num_courts players in
  let pg := playing_set g players max_matches games_played skip_selection in
  generate_round g players num_courts past past_opponents games_played wins
    num_attempts skip_selection = Ok (_generate_fallback pg.2 pg.1 max_matches) ∧
  Z.of_nat (length (_generate_fallback pg.2 pg.1 max_matches).1) = max_matches.
Proof.
  intros Hlen Hcourts Hatt max_matches pg.
  assert (1 ≤ match_count num_courts players) as Hmm.
  { unfold match_count.
    assert (1 ≤ Z.of_nat (length players) `div` 4); [|lia].
    apply Z.div_le_lower_bound; lia. }
  split.
  - rewrite generate_round_unfold by (done || lia).
    fold max_matches. fold pg.
    replace (Z.to_nat num_attempts) with 0%nat by lia. done.
  - destruct (fallback_shape pg.2 pg.1 max_matches) as (_ & Hcount & _).
    { apply playing_enough. }
    rewrite Hcount. unfold max_matches. lia.
Qed.

End round_edges.

Lemma generate_round_no_courts_witness :
  -1 ≤ 0 ∧
  ∃ g', @generate_round draw_shuffler [3; 1; 4]%nat eight (-1) ∅ ∅ ∅ ∅ 5 false
          = Ok ([], g').
Proof.
  split; [lia|].
  apply (@generate_round_no_courts draw_shuffler [3; 1; 4]%nat eight (-1)
           ∅ ∅ ∅ ∅ 5 false).
  lia.
Defined.

Lemma generate_round_no_attempts_witness :
  (4 ≤ length eight)%nat ∧ 1 ≤ 2 ∧ 0 ≤ 0 ∧
  Z.of_nat (length (@_generate_fallback draw_shuffler
                      (@playing_set draw_shuffler [3; 1; 4]%nat eight
                         (match_count 2 eight) ∅ false).2
                      (@playing_set draw_shuffler [3; 1; 4]%nat eight
                         (match_count 2 eight) ∅ false).1
                      (match_count 2 eight)).1) = match_count 2 eight.
Proof.
  assert (4 ≤ length eight)%nat as Hlen by (simpl; lia).
  split_and!; [exact Hlen | lia | lia |].
  apply (@generate_round_no_attempts draw_shuffler [3; 1; 4]%nat eight 2
           ∅ ∅ ∅ ∅ 0 false Hlen); lia.
Defined.

(** ** What the score does not depend on *)


Lemma pair_key_canonical (a b : Z) : (pair_key a b).1 ≤ (pair_key a b).2.
Proof. unfold pair_key. simpl. lia. Qed.









(** ** The best score a candidate can have *)





(** ** The order of preference of the pair former *)

Lemma scan_any_None (used : gset Z) (females : list player) :
  scan_any used females = None → ∀ f, f ∈ females → id f ∈ used.
Proof.
  induction females as [|f' fs IH]; simpl; intros Hscan f Hf.
  - by apply elem_of_nil in Hf.
  - case_decide as Hin; [|done].
    apply elem_of_cons in Hf as [->|Hf]; [done | by apply IH].
Qed.

Lemma unused_nil (used : gset Z) (l : list player) :
  (∀ p, p ∈ l → id p ∈ used) → unused used l = [].
Proof.
  unfold unused. induction l as [|p l IH]; intros Hall; [done|].
  rewrite filter_cons, decide_False by (intros Hp; apply Hp, Hall; left).
  apply IH. intros q Hq. apply Hall. by right.
Qed.

Section pass_growth.
Context (Q : player → player → Prop).
Context (step : pair_state → player → pair_state).
Context (Hstep : ∀ st m, step st m = st ∨
                         (∃ f, Q m f ∧ step st m = add_pair st m f)).

(** A pass only appends pairs and only adds to the used sets. *)
Lemma fold_pairs_extend (ms : list player) (st : pair_state) :
  ∃ new, pairs (foldl step st ms) = pairs st ++ new ∧
         Forall (λ p, Q p.1 p.2) new ∧
         used_m st ⊆ used_m (foldl step st ms) ∧
         used_f st ⊆ used_f (foldl step st ms).
Proof.
  revert st. induction ms as [|m ms IH]; intros st; simpl.
  - exists []. by rewrite app_nil_r.
  - destruct (Hstep st m) as [->|(f & HQ & ->)]; [apply IH|].
    destruct (IH (add_pair st m f)) as (new & Hnew & Hall & Hm & Hf).
    exists ((m, f) :: new). simpl in *. split_and!.
    + by rewrite Hnew, <- app_assoc.
    + by constructor.
    + set_solver.
    + set_solver.
Qed.

End pass_growth.

Lemma second_pass_step_cases (remaining_f : list player) (st : pair_state)
    (m : player) :
  second_pass_step remaining_f st m = st ∨
  (∃ f, True ∧ second_pass_step remaining_f st m = add_pair st m f).
Proof.
  unfold second_pass_step.
  destruct (scan_any (used_f st) remaining_f); [right; by eexists | by left].
Qed.

Lemma first_pass_step_cases (past : gset (Z * Z)) (females : list player)
    (st : pair_state) (m : player) :
  first_pass_step past females st m = st ∨
  (∃ f, (pair_key (id m) (id f) ∉ past) ∧
        first_pass_step past females st m = add_pair st m f).
Proof.
  unfold first_pass_step.
  destruct (scan_novel past m (used_f st) females) as [f|] eqn:Hscan;
    [|by left].
  apply scan_novel_Some in Hscan as (_ & _ & Hnovel). right. by exists f.
Qed.

(** The second pass stops only when the males or the females it was given
    are all used. *)
Lemma second_pass_exhausts (remaining_f remaining_m : list player)
    (st : pair_state) :
  let st' := foldl (second_pass_step remaining_f) st remaining_m in
  (∀ m, m ∈ remaining_m → id m ∈ used_m st') ∨
  (∀ f, f ∈ remaining_f → id f ∈ used_f st').
Proof.
  revert st. induction remaining_m as [|m ms IH]; intros st; simpl.
  - left. intros m Hm. by apply elem_of_nil in Hm.
  - unfold second_pass_step at 2 4.
    destruct (scan_any (used_f st) remaining_f) as [f|] eqn:Hscan.
    + destruct (IH (add_pair st m f)) as [Hleft|Hright]; [|by right].
      left. intros m' [->|Hm']%elem_of_cons; [|by apply Hleft].
      destruct (fold_pairs_extend (λ _ _, True)
                  (second_pass_step remaining_f)
                  (second_pass_step_cases remaining_f) ms (add_pair st m f))
        as (_ & _ & _ & Hsub & _).
      apply Hsub. simpl. set_solver.
    + right. intros f Hf.
      destruct (fold_pairs_extend (λ _ _, True)
                  (second_pass_step remaining_f)
                  (second_pass_step_cases remaining_f) ms st)
        as (_ & _ & _ & _ & Hsub).
      apply Hsub. by eapply scan_any_None.
Qed.

(** After the two mixed passes one of the two groups is used up, so
    [min(len(males), len(females))] mixed pairs were formed; those of the
    first pass, which come first, repeat no past partnership. *)
Lemma mixed_state_structure (past : gset (Z * Z)) (males females : list player) :
  NoDup (id <$> males) → NoDup (id <$> females) →
  let st := mixed_state past males females in
  ∃ novel repeated,
    pairs st = novel ++ repeated ∧
    Forall (λ p, pair_key (id p.1) (id p.2) ∉ past) novel ∧
    Forall (λ p, p.1 ∈ males ∧ p.2 ∈ females) (pairs st) ∧
    length (pairs st) = (length males `min` length females)%nat ∧
    (unused (used_m st) males = [] ∨ unused (used_f st) females = []).
Proof.
  intros Hm Hf st.
  destruct (mixed_state_inv past males females Hm)
    as (Hum & Huf & Hnm & Hnf & Hsm & Hsf).
  fold st in Hum, Huf, Hnm, Hnf, Hsm, Hsf.
  set (st1 := foldl (first_pass_step past females) (PairState [] ∅ ∅) males).
  destruct (fold_pairs_extend (λ m f, pair_key (id m) (id f) ∉ past)
              (first_pass_step past females)
              (first_pass_step_cases past females) males (PairState [] ∅ ∅))
    as (novel & Hnovel & Hall1 & _ & _).
  fold st1 in Hnovel. simpl in Hnovel.
  destruct (fold_pairs_extend (λ _ _, True)
              (second_pass_step (unused (used_f st1) females))
              (second_pass_step_cases (unused (used_f st1) females))
              (unused (used_m st1) males) st1)
    as (repeated & Hrep & _ & Hmono_m & Hmono_f).
  change (foldl _ st1 _) with st in Hrep, Hmono_m, Hmono_f.
  assert (unused (used_m st) males = [] ∨ unused (used_f st) females = [])
    as Hex.
  { destruct (second_pass_exhausts (unused (used_f st1) females)
                (unused (used_m st1) males) st1) as [Hleft|Hright].
    - left. apply unused_nil. intros m Hmin.
      destruct (decide (id m ∈ used_m st1)) as [Hin|Hout];
        [by apply Hmono_m|].
      apply Hleft. unfold unused. by apply list_elem_of_filter.
    - right. apply unused_nil. intros f Hfin.
      destruct (decide (id f ∈ used_f st1)) as [Hin|Hout];
        [by apply Hmono_f|].
      apply Hright. unfold unused. by apply list_elem_of_filter. }
  assert ((pairs st).*1 ++ unused (used_m st) males ≡ₚ males) as Hsplit_m.
  { rewrite Hum. by apply used_unused_perm. }
  assert ((pairs st).*2 ++ unused (used_f st) females ≡ₚ females) as Hsplit_f.
  { rewrite Huf. by apply used_unused_perm. }
  apply Permutation_length in Hsplit_m, Hsplit_f.
  rewrite length_app, length_fmap in Hsplit_m, Hsplit_f.
  exists novel, repeated. split_and!.
  - by rewrite Hrep, Hnovel.
  - done.
  - apply Forall_forall. intros p Hp. split.
    + apply Hsm. by apply list_elem_of_fmap_2.
    + apply Hsf. by apply list_elem_of_fmap_2.
  - destruct Hex as [Hnil|Hnil]; rewrite Hnil in *; simpl in *; lia.
  - done.
Qed.

Section form_pairs_preference.
Context `{Shuffler}.

Lemma form_pairs_structure (g : rng) (males females : list player)
    (past : gset (Z * Z)) :
  NoDup (id <$> males) → NoDup (id <$> females) →
  ∃ novel repeated same g',
    _form_pairs g males females past = Ok (novel ++ repeated ++ same, g') ∧
    Forall (λ p, p.1 ∈ males ∧ p.2 ∈ females ∧
                 pair_key (id p.1) (id p.2) ∉ past) novel ∧
    Forall (λ p, p.1 ∈ males ∧ p.2 ∈ females) repeated ∧
    length (novel ++ repeated) = (length males `min` length females)%nat ∧
    (flat_pairs same ⊆ males ∨ flat_pairs same ⊆ females).
Proof.
  intros Hm Hf.
  destruct (form_pairs_unfold g males females past)
    as (ms & fs & lo & g' & Hms & Hfs & Hlo & ->).
  rewrite <- Hms in Hm. rewrite <- Hfs in Hf.
  destruct (mixed_state_structure past ms fs Hm Hf)
    as (novel & repeated & Hpairs & Hnovel & Hmixed & Hcount & Hex).
  set (st := mixed_state past ms fs) in *.
  destruct (leftover_loop_spec past (length lo) lo (pairs st))
    as (same & -> & _ & Hsub); [lia|].
  rewrite Hpairs in Hmixed. apply Forall_app in Hmixed as [Hmix1 Hmix2].
  exists novel, repeated, same, g'. split_and!.
  - cbn [mbind res_bind]. by rewrite Hpairs, <- app_assoc.
  - rewrite Forall_forall in Hmix1, Hnovel. apply Forall_forall.
    intros p Hp. destruct (Hmix1 p Hp) as [H1 H2].
    rewrite <- Hms, <- Hfs. split_and!; [done | done | by apply Hnovel].
  - eapply Forall_impl; [exact Hmix2|].
    intros p [H1 H2]. by rewrite <- Hms, <- Hfs.
  - by rewrite <- Hpairs, Hcount, Hms, Hfs.
  - rewrite Hlo in Hsub. unfold leftover_of in Hsub.
    destruct Hex as [Hnil|Hnil]; rewrite Hnil in Hsub.
    + right. intros p Hp. rewrite <- Hfs.
      eapply unused_subseteq, elem_of_submseteq; [exact Hp | exact Hsub].
    + left. rewrite app_nil_r in Hsub. intros p Hp. rewrite <- Hms.
      eapply unused_subseteq, elem_of_submseteq; [exact Hp | exact Hsub].
Qed.


End form_pairs_preference.


(** ** Gender tags and the candidates *)

Lemma males_of_Permutation (l k : list player) :
  l ≡ₚ k → males_of l ≡ₚ males_of k.
Proof. intros Hp. unfold males_of. by rewrite Hp. Qed.

Lemma females_of_Permutation (l k : list player) :
  l ≡ₚ k → females_of l ≡ₚ females_of k.
Proof. intros Hp. unfold females_of. by rewrite Hp. Qed.

Lemma males_of_gender (l : list player) (p : player) :
  p ∈ males_of l → gender p = "M"%string.
Proof. unfold males_of. rewrite list_elem_of_filter. tauto. Qed.

Lemma females_of_gender (l : list player) (p : player) :
  p ∈ females_of l → gender p = "F"%string.
Proof. unfold females_of. rewrite list_elem_of_filter. tauto. Qed.

Lemma group_pairs_mixed (c : Z) (ps : list (player * player)) :
  Forall mixed_pair ps →
  Forall (λ m, mixed_team (team1 m) ∧ mixed_team (team2 m)) (group_pairs c ps).
Proof.
  revert c. induction ps as [ps IH] using (induction_ltof1 _ length).
  unfold ltof in IH. intros c Hall.
  destruct ps as [|t1 [|t2 ps]]; simpl; try constructor.
  - apply Forall_cons in Hall as [[? ?] Hall].
    apply Forall_cons in Hall as [[? ?] _].
    simpl. split; by eexists _, _.
  - apply IH; [simpl; lia|].
    by apply Forall_cons in Hall as [_ [_ Hall]%Forall_cons].
Qed.

Lemma flat_pairs_elem_of (ps : list (player * player)) (p : player) :
  p ∈ flat_pairs ps → ∃ q, q ∈ ps ∧ (p = q.1 ∨ p = q.2).
Proof.
  induction ps as [|q ps IH]; [by intros ?%elem_of_nil|].
  change (flat_pairs (q :: ps)) with (q.1 :: q.2 :: flat_pairs ps).
  intros [->|[->|Hp]%elem_of_cons]%elem_of_cons.
  - exists q. split; [by left | by left].
  - exists q. split; [by left | by right].
  - destruct (IH Hp) as (q' & Hq' & Hpq). exists q'. split; [by right | done].
Qed.

Lemma round_players_length (ms : list court_match) :
  Forall two_a_side ms → length (round_players ms) = (4 * length ms)%nat.
Proof.
  induction 1 as [|m ms [H1 H2] _ IH]; [done|].
  change (round_players (m :: ms)) with (match_players m ++ round_players ms).
  unfold match_players. rewrite !length_app, H1, H2, IH.
  change (length (m :: ms)) with (S (length ms)). lia.
Qed.

Section candidate_tags.
Context `{Shuffler}.

(** The pairs behind a candidate, for a pool of distinct ids. *)
Lemma candidate_pairs (g g' : rng) (players : list player) (num_matches : Z)
    (past : gset (Z * Z)) (c : list court_match) :
  NoDup (id <$> players) →
  _generate_candidate g players num_matches past = Ok (Some c, g') →
  ∃ novel repeated same sps,
    sps ≡ₚ novel ++ repeated ++ same ∧
    c = group_pairs 1 (take (Z.to_nat (num_matches * 2)) sps) ∧
    length (take (Z.to_nat (num_matches * 2)) sps)
      = (2 * Z.to_nat num_matches)%nat ∧
    Forall mixed_pair (novel ++ repeated) ∧
    length (novel ++ repeated)
      = (length (males_of players) `min` length (females_of players))%nat ∧
    length (novel ++ repeated ++ same)
      = ((length (males_of players) + length (females_of players)) `div` 2)%nat ∧
    (flat_pairs same ⊆ males_of players ∨ flat_pairs same ⊆ females_of players).
Proof.
  intros Hnd Hgc.
  destruct (generate_candidate_cases g players num_matches past)
    as (ps & g2 & Hps & [[_ Heq]|[Hlen Heq]]); rewrite Heq in Hgc; [done|].
  injection Hgc as <- _.
  pose proof (shuffle_perm _ g players) as Hsh.
  destruct (shuffle g players) as [sh g1]. simpl in *.
  rewrite <- Hsh in Hnd.
  assert (NoDup (id <$> males_of sh)) as Hm by by apply filter_ids_NoDup.
  assert (NoDup (id <$> females_of sh)) as Hf by by apply filter_ids_NoDup.
  destruct (form_pairs_structure g1 (males_of sh) (females_of sh) past Hm Hf)
    as (novel & repeated & same & g2' & Hps' & Hnovel & Hrep & Hcount & Hsame).
  rewrite Hps in Hps'. injection Hps' as -> <-.
  destruct (form_pairs_spec g1 (males_of sh) (females_of sh) past Hm Hf)
    as (ps' & g2' & Hps' & _ & Htotal).
  rewrite Hps in Hps'. injection Hps' as <- _.
  exists novel, repeated, same, (shuffle g2 (novel ++ repeated ++ same)).1.
  rewrite <- (males_of_Permutation _ _ Hsh), <- (females_of_Permutation _ _ Hsh).
  split_and!; try done.
  - apply shuffle_perm.
  - rewrite length_take, shuffle_perm. lia.
  - apply Forall_app. split.
    + eapply Forall_impl; [exact Hnovel|]. intros p (H1 & H2 & _).
      split; [by eapply males_of_gender | by eapply females_of_gender].
    + eapply Forall_impl; [exact Hrep|]. intros p (H1 & H2).
      split; [by eapply males_of_gender | by eapply females_of_gender].
Qed.

(** X8. A player whose gender tag is neither "M" nor "F" is never part of
    a candidate: [_generate_candidate] only pairs the players of the two
    recognised groups (ids pairwise distinct). *)
Theorem candidate_drops_untagged (g g' : rng) (players : list player)
    (num_matches : Z) (past : gset (Z * Z)) (c : list court_match) :
  NoDup (id <$> players) →
  _generate_candidate g players num_matches past = Ok (Some c, g') →
  ∀ p, p ∈ round_players c →
       p ∈ players ∧ (gender p = "M"%string ∨ gender p = "F"%string).
Proof.
  intros Hnd Hgc p Hp. split.
  { eapply elem_of_submseteq; [exact Hp|].
    by eapply candidate_players_submseteq. }
  destruct (candidate_pairs g g' players num_matches past c Hnd Hgc)
    as (novel & repeated & same & sps & Hsps & -> & Hlen & Hmixed & _ & _
        & Hsame).
  rewrite (group_pairs_players _ _ (Z.to_nat num_matches)) in Hp by done.
  assert (p ∈ flat_pairs (novel ++ repeated ++ same)) as Hin.
  { rewrite <- (flat_pairs_Permutation _ _ Hsps).
    eapply elem_of_submseteq; [exact Hp | apply flat_pairs_take]. }
  rewrite app_assoc, flat_pairs_app in Hin.
  apply elem_of_app in Hin as [Hin|Hin].
  - apply flat_pairs_elem_of in Hin as (q & Hq & Hpq).
    rewrite Forall_forall in Hmixed. destruct (Hmixed q Hq) as [Hq1 Hq2].
    destruct Hpq as [->| ->]; [by left | by right].
  - destruct Hsame as [Hs|Hs].
    + left. eapply males_of_gender. by apply Hs.
    + right. eapply females_of_gender. by apply Hs.
Qed.

(** With as many males as females no same-group pair is formed. *)
Lemma balanced_pairs_mixed (g g' : rng) (players : list player)
    (num_matches : Z) (past : gset (Z * Z)) (c : list court_match) :
  NoDup (id <$> players) →
  length (males_of players) = length (females_of players) →
  _generate_candidate g players num_matches past = Ok (Some c, g') →
  ∃ sps, c = group_pairs 1 (take (Z.to_nat (num_matches * 2)) sps) ∧
         Forall mixed_pair sps.
Proof.
  intros Hnd Hbal Hgc.
  destruct (candidate_pairs g g' players num_matches past c Hnd Hgc)
    as (novel & repeated & same & sps & Hsps & -> & _ & Hmixed & Hcount
        & Htotal & _).
  assert (same = []) as ->.
  { apply nil_length_inv. rewrite app_assoc, length_app, Hcount in Htotal.
    rewrite Hbal, Nat.min_id in Htotal.
    replace (length (females_of players) + length (females_of players))%nat
      with (length (females_of players) * 2)%nat in Htotal by lia.
    rewrite Nat.div_mul in Htotal by lia. lia. }
  rewrite app_nil_r in Hsps. rewrite <- Hsps in Hmixed.
  by exists sps.
Qed.

(** X9. When the pool holds as many males as females (ids pairwise
    distinct), every team of every candidate is mixed: one male and one
    female, whatever the partnership history. *)
Theorem candidate_all_mixed (g g' : rng) (players : list player)
    (num_matches : Z) (past : gset (Z * Z)) (c : list court_match) :
  NoDup (id <$> players) →
  length (males_of players) = length (females_of players) →
  _generate_candidate g players num_matches past = Ok (Some c, g') →
  Forall (λ m, mixed_team (team1 m) ∧ mixed_team (team2 m)) c.
Proof.
  intros Hnd Hbal Hgc.
  destruct (balanced_pairs_mixed g g' players num_matches past c Hnd Hbal Hgc)
    as (sps & -> & Hmixed).
  apply group_pairs_mixed.
  rewrite Forall_forall in Hmixed. apply Forall_forall.
  intros p Hp. apply Hmixed.
  eapply elem_of_submseteq; [exact Hp | apply submseteq_take].
Qed.

End candidate_tags.

Lemma candidate_drops_untagged_witness :
  NoDup (id <$> [mk 1 "M"; mk 2 "F"; mk 9 "X"; mk 3 "M"; mk 4 "F"]) ∧
  ∃ c g',
    @_generate_candidate draw_shuffler [2; 0; 1]%nat
      [mk 1 "M"; mk 2 "F"; mk 9 "X"; mk 3 "M"; mk 4 "F"] 1 ∅ = Ok (Some c, g') ∧
    ∀ p, p ∈ round_players c →
         p ∈ [mk 1 "M"; mk 2 "F"; mk 9 "X"; mk 3 "M"; mk 4 "F"] ∧
         (gender p = "M"%string ∨ gender p = "F"%string).
Proof.
  assert (NoDup (id <$> [mk 1 "M"; mk 2 "F"; mk 9 "X"; mk 3 "M"; mk 4 "F"]))
    as Hnd by decide_closed.
  split; [exact Hnd|].
  eexists _, _. split; [vm_compute; reflexivity|].
  eapply (@candidate_drops_untagged draw_shuffler [2; 0; 1]%nat _
            [mk 1 "M"; mk 2 "F"; mk 9 "X"; mk 3 "M"; mk 4 "F"] 1 ∅ _ Hnd).
  vm_compute. reflexivity.
Defined.

Lemma candidate_all_mixed_witness :
  NoDup (id <$> eight) ∧
  length (males_of eight) = length (females_of eight) ∧
  ∃ c g',
    @_generate_candidate draw_shuffler [2; 0; 1]%nat eight 2 {[(1, 2)]}
      = Ok (Some c, g') ∧
    Forall (λ m, mixed_team (team1 m) ∧ mixed_team (team2 m)) c.
Proof.
  assert (NoDup (id <$> eight)) as Hnd by decide_closed.
  split_and!; [exact Hnd | reflexivity |].
  eexists _, _. split; [vm_compute; reflexivity|].
  eapply (@candidate_all_mixed draw_shuffler [2; 0; 1]%nat _ eight 2
            {[(1, 2)]} _ Hnd); [reflexivity|].
  vm_compute. reflexivity.
Defined.

(** ** The rounds returned: who plays, who sits out *)

Section round_players_facts.
Context `{Shuffler}.


Lemma untagged_candidate_None (g g' : rng) (pool : list player)
    (num_matches : Z) (past : gset (Z * Z)) (c : list court_match) :
  untagged pool → 1 ≤ num_matches →
  _generate_candidate g pool num_matches past = Ok (Some c, g') → False.
Proof.
  intros Hun Hn Hgc.
  destruct (generate_candidate_cases g pool num_matches past)
    as (ps & g2 & Hps & [[_ Heq]|[Hlen Heq]]); rewrite Heq in Hgc; [done|].
  pose proof (shuffle_perm _ g pool) as Hsh.
  destruct (shuffle g pool) as [sh g1]. simpl in *.
  unfold untagged in Hun. rewrite <- Hsh in Hun.
  assert (males_of sh = []) as Hm.
  { unfold males_of. clear -Hun. induction Hun as [|p l [Hp _] _ IH]; [done|].
    by rewrite filter_cons, decide_False. }
  assert (females_of sh = []) as Hf.
  { unfold females_of. clear -Hun. induction Hun as [|p l [_ Hp] _ IH]; [done|].
    by rewrite filter_cons, decide_False. }
  rewrite Hm, Hf in Hps.
  destruct (form_pairs_spec g1 [] [] past) as (ps' & g2' & Hps' & _ & Hcount);
    [constructor..|].
  rewrite Hps in Hps'. injection Hps' as <- _. simpl in Hcount.
  rewrite Hcount in Hlen. simpl in Hlen. lia.
Qed.

(** X10. When no player carries the tag "M" or "F" (and there are at
    least 4 players and a court), no attempt yields a candidate: the loop
    ends with no best candidate and [generate_round] returns the fallback
    assignment, which still has [min(num_courts, len // 4)] matches. *)
Theorem untagged_falls_back (g : rng) (players : list player)
    (num_courts : Z) (past : gset (Z * Z)) (past_opponents : gmap (Z * Z) Z)
    (games_played wins : gmap Z Z) (num_attempts : Z) (skip_selection : bool) :
  untagged players → (4 ≤ length players)%nat → 1 ≤ num_courts →
  let max_matches := match_count num_courts players in
  let pg := playing_set g players max_matches games_played skip_selection in
  ∃ b g2,
    attempt_loop (Z.to_nat num_attempts) pg.1 max_matches past
      past_opponents wins (Best None NegInf, pg.2) = Ok (b, g2) ∧
    best_matches b = None ∧
    generate_round g players num_courts past past_opponents games_played wins
      num_attempts skip_selection = Ok (_generate_fallback g2 pg.1 max_matches) ∧
    Z.of_nat (length (_generate_fallback g2 pg.1 max_matches).1) = max_matches.
Proof.
  intros Hun Hlen Hcourts max_matches pg.
  assert (1 ≤ max_matches) as Hmm.
  { unfold max_matches, match_count.
    assert (1 ≤ Z.of_nat (length players) `div` 4); [|lia].
    apply Z.div_le_lower_bound; lia. }
  assert (untagged pg.1) as Hun'.
  { unfold untagged in *. rewrite Forall_forall in Hun. apply Forall_forall.
    intros p Hp. apply Hun.
    eapply elem_of_submseteq; [exact Hp | apply playing_submseteq]. }
  destruct (attempt_loop_best pg.1 max_matches past past_opponents wins
              (λ _, False) (Z.to_nat num_attempts) pg.2)
    as (b & g2 & Hloop & _ & HP).
  { intros g0 c g1. by apply untagged_candidate_None. }
  assert (best_matches b = None) as Hb.
  { destruct (best_matches b) as [ms|] eqn:Hb; [|done]. by destruct (HP ms). }
  exists b, g2. split_and!; [done | done | |].
  - rewrite generate_round_unfold by (done || (fold max_matches; lia)).
    fold max_matches. fold pg. rewrite Hloop. cbn [mbind res_bind].
    by rewrite Hb.
  - destruct (fallback_shape g2 pg.1 max_matches) as (_ & Hcount & _).
    { apply playing_enough. }
    rewrite Hcount. lia.
Qed.




End round_players_facts.

Lemma untagged_falls_back_witness :
  untagged [mk 1 "X"; mk 2 "X"; mk 3 "m"; mk 4 "f"] ∧
  (4 ≤ length [mk 1 "X"; mk 2 "X"; mk 3 "m"; mk 4 "f"])%nat ∧ 1 ≤ 1 ∧
  ∃ ms g',
    @generate_round draw_shuffler [1; 2]%nat
      [mk 1 "X"; mk 2 "X"; mk 3 "m"; mk 4 "f"] 1 ∅ ∅ ∅ ∅ 3 false
      = Ok (ms, g') ∧
    length ms = 1%nat.
Proof.
  assert (untagged [mk 1 "X"; mk 2 "X"; mk 3 "m"; mk 4 "f"]) as Hun
    by (unfold untagged; decide_closed).
  assert (4 ≤ length [mk 1 "X"; mk 2 "X"; mk 3 "m"; mk 4 "f"])%nat as Hlen
    by (simpl; lia).
  split_and!; [exact Hun | exact Hlen | lia |].
  destruct (@untagged_falls_back draw_shuffler [1; 2]%nat
              [mk 1 "X"; mk 2 "X"; mk 3 "m"; mk 4 "f"] 1 ∅ ∅ ∅ ∅ 3 false
              Hun Hlen) as (b & g2 & _ & _ & Hgr & Hcount); [lia|].
  destruct (_generate_fallback g2 _ _) as [ms g3].
  exists ms, g3. split; [exact Hgr|].
  apply Nat2Z.inj. exact Hcount.
Defined.




(** * The history read from the matches table *)

Lemma pair_key_eq_iff (a b c d : Z) :
  pair_key a b = pair_key c d ↔ (c = a ∧ d = b) ∨ (c = b ∧ d = a).
Proof.
  unfold pair_key. split.
  - intros [= Hmin Hmax]. lia.
  - intros [(-> & ->)|(-> & ->)]; f_equal; lia.
Qed.

Lemma collect_pairs_acc (rows : list (Z * Z)) (acc : gset (Z * Z))
    (k : Z * Z) :
  k ∈ foldl (λ pairs r, pairs ∪ {[pair_key r.1 r.2]}) acc rows ↔
  k ∈ acc ∨ ∃ r, r ∈ rows ∧ k = pair_key r.1 r.2.
Proof.
  revert acc. induction rows as [|r rows IH]; intros acc; simpl.
  - split; [by left|]. intros [?|(r & Hr & _)]; [done|].
    by apply elem_of_nil in Hr.
  - rewrite IH, elem_of_union, elem_of_singleton. split.
    + intros [[?| ->]|(r' & Hr' & ->)]; [by left|right..].
      * exists r. split; [by left | done].
      * exists r'. split; [by right | done].
    + intros [?|(r' & [->|Hr']%elem_of_cons & ->)].
      * by left; left.
      * by left; right.
      * right. by exists r'.
Qed.

Lemma collect_pairs_elem_of (rows : list (Z * Z)) (k : Z * Z) :
  k ∈ collect_pairs rows ↔ ∃ r, r ∈ rows ∧ k = pair_key r.1 r.2.
Proof.
  unfold collect_pairs. rewrite collect_pairs_acc. split.
  - intros [Hk|?]; [|done]. by apply not_elem_of_empty in Hk.
  - by right.
Qed.

(** X14. The set built by the loop of [get_all_past_partnerships] holds
    canonical keys only, and the engine's lookup of [pair_key a b] in it
    succeeds exactly when some fetched row pairs [a] and [b], in either
    order; the order in which the rows are fetched does not matter. *)
Theorem collect_pairs_spec (rows : list (Z * Z)) :
  (∀ k, k ∈ collect_pairs rows → k.1 ≤ k.2) ∧
  (∀ a b, pair_key a b ∈ collect_pairs rows ↔ ∃ r, r ∈ rows ∧ faced a b r) ∧
  (∀ rows', rows ≡ₚ rows' → collect_pairs rows' = collect_pairs rows).
Proof.
  split_and!.
  - intros k (r & _ & ->)%collect_pairs_elem_of. apply pair_key_canonical.
  - intros a b. rewrite collect_pairs_elem_of. unfold faced.
    split; intros (r & Hr & Hk); exists r; (split; [done|]);
      by apply pair_key_eq_iff.
  - intros rows' Hperm. apply set_eq. intros k.
    rewrite !collect_pairs_elem_of. by setoid_rewrite Hperm.
Qed.

(** The loop of [get_all_past_opponents] from any starting dict. *)
Lemma count_pairs_acc (rows : list (Z * Z)) (acc : gmap (Z * Z) Z)
    (k : Z * Z) :
  let counts := foldl (λ counts r,
                         <[pair_key r.1 r.2 :=
                             default 0 (counts !! pair_key r.1 r.2) + 1]> counts)
                      acc rows in
  default 0 (counts !! k) =
    default 0 (acc !! k)
    + Z.of_nat (length (filter (λ r, pair_key r.1 r.2 = k) rows)) ∧
  (is_Some (counts !! k) ↔
   is_Some (acc !! k) ∨ ∃ r, r ∈ rows ∧ pair_key r.1 r.2 = k).
Proof.
  revert acc. induction rows as [|r rows IH]; intros acc; simpl.
  - split; [lia|]. split; [by left|].
    intros [?|(r & Hr & _)]; [done | by apply elem_of_nil in Hr].
  - destruct (IH (<[pair_key r.1 r.2 :=
                     default 0 (acc !! pair_key r.1 r.2) + 1]> acc))
      as [Hcount Hsome].
    rewrite Hcount, Hsome, filter_cons.
    destruct (decide (pair_key r.1 r.2 = k)) as [<-|Hne].
    + rewrite lookup_insert_eq. simpl. split; [lia|].
      split; [|by intros; left; eexists].
      intros _. right. exists r. split; [by left | done].
    + rewrite lookup_insert_ne by done. split; [lia|].
      split.
      * intros [?|(r' & Hr' & Hk)]; [by left|].
        right. exists r'. split; [by right | done].
      * intros [?|(r' & [->|Hr']%elem_of_cons & Hk)]; [by left | done |].
        right. by exists r'.
Qed.

Lemma count_pairs_lookup (rows : list (Z * Z)) (k : Z * Z) :
  default 0 (count_pairs rows !! k) =
    Z.of_nat (length (filter (λ r, pair_key r.1 r.2 = k) rows)) ∧
  (is_Some (count_pairs rows !! k) ↔ ∃ r, r ∈ rows ∧ pair_key r.1 r.2 = k).
Proof.
  destruct (count_pairs_acc rows ∅ k) as [Hcount Hsome].
  unfold count_pairs. rewrite Hcount, Hsome, lookup_empty. simpl.
  split; [lia|]. split; [|by right].
  intros [[? [=]]|?]; done.
Qed.

Lemma filter_length_ext {A} (P Q : A → Prop) `{∀ x, Decision (P x)}
    `{∀ x, Decision (Q x)} (l : list A) :
  (∀ x, P x ↔ Q x) → length (filter P l) = length (filter Q l).
Proof.
  intros Heq. induction l as [|x l IH]; [done|].
  rewrite !filter_cons. destruct (decide (P x)) as [HP|HP].
  - rewrite decide_True by by apply Heq. simpl. by rewrite IH.
  - rewrite decide_False by (by rewrite <- Heq). done.
Qed.

(** X15. The dict built by the loop of [get_all_past_opponents] maps the
    canonical key of [a] and [b] to the number of fetched rows that oppose
    them, in either order; a pair that never met has no entry, so every
    stored count is at least 1, and the order of the rows does not
    matter. *)
Theorem count_pairs_spec (rows : list (Z * Z)) :
  (∀ a b, default 0 (count_pairs rows !! pair_key a b) =
          Z.of_nat (length (filter (faced a b) rows))) ∧
  (∀ k v, count_pairs rows !! k = Some v →
          1 ≤ v ∧ k.1 ≤ k.2 ∧ ∃ r, r ∈ rows ∧ k = pair_key r.1 r.2) ∧
  (∀ rows', rows ≡ₚ rows' → count_pairs rows' = count_pairs rows).
Proof.
  assert (∀ rs k v, count_pairs rs !! k = Some v →
            v = Z.of_nat (length (filter (λ r, pair_key r.1 r.2 = k) rs)))
    as Hval.
  { intros rs k v Hv. destruct (count_pairs_lookup rs k) as [Hcount _].
    by rewrite Hv in Hcount. }
  split_and!.
  - intros a b. destruct (count_pairs_lookup rows (pair_key a b)) as [-> _].
    f_equal. apply filter_length_ext. intros r. unfold faced.
    rewrite pair_key_eq_iff. naive_solver.
  - intros k v Hv.
    destruct (count_pairs_lookup rows k) as [_ Hsome].
    destruct (proj1 Hsome) as (r & Hr & Hk); [by eexists|].
    rewrite (Hval rows k v Hv). split_and!.
    + assert (r ∈ filter (λ r, pair_key r.1 r.2 = k) rows) as Hin
        by by apply list_elem_of_filter.
      destruct (filter _ rows); [by apply elem_of_nil in Hin | simpl; lia].
    + rewrite <- Hk. apply pair_key_canonical.
    + by exists r.
  - intros rows' Hperm. apply map_eq. intros k.
    destruct (count_pairs_lookup rows k) as [_ Hsome].
    destruct (count_pairs_lookup rows' k) as [_ Hsome'].
    destruct (count_pairs rows !! k) as [v|] eqn:Hv,
             (count_pairs rows' !! k) as [v'|] eqn:Hv'.
    + rewrite (Hval rows k v Hv), (Hval rows' k v' Hv'). by rewrite Hperm.
    + destruct (proj1 Hsome) as (r & Hr & Hk); [by eexists|].
      destruct (proj2 Hsome') as [? [=]]. exists r. by rewrite <- Hperm.
    + destruct (proj1 Hsome') as (r & Hr & Hk); [by eexists|].
      destruct (proj2 Hsome) as [? [=]]. exists r. by rewrite Hperm.
    + done.
Qed.

(** * Storing a round and drawing the next one *)

Lemma create_match_call_two (rid : Z) (k : Z) (a b c d : player) :
  create_match_call rid (Match k [a; b] [c; d]) =
    Ok (MatchCall rid k (id a) (id b) (id c) (id d)).
Proof. reflexivity. Qed.

Lemma create_match_calls_spec (rid : Z) (ms : list court_match) :
  Forall two_a_side ms →
  ∃ calls,
    create_match_calls rid ms = Ok calls ∧
    length calls = length ms ∧
    call_court_number <$> calls = court <$> ms ∧
    concat (call_ids <$> calls) = id <$> round_players ms ∧
    Forall (λ c, call_round_id c = rid) calls.
Proof.
  induction 1 as [|m ms Hm _ (calls & Hcalls & Hlen & Hcourt & Hids & Hrid)].
  - by exists [].
  - apply two_a_side_inv in Hm as (a & b & c & d & H1 & H2).
    destruct m as [k t1 t2]. simpl in H1, H2. subst t1 t2.
    exists (MatchCall rid k (id a) (id b) (id c) (id d) :: calls).
    cbn [create_match_calls]. rewrite create_match_call_two, Hcalls.
    split_and!; [done | simpl; by rewrite Hlen
                 | by rewrite !fmap_cons, Hcourt | | by constructor].
    change (round_players (Match k [a; b] [c; d] :: ms))
      with ([a; b; c; d] ++ round_players ms).
    rewrite fmap_app, <- Hids. done.
Qed.





Lemma players_for_engine_submseteq (active_players : list player)
    (locked_player_ids : option (gset Z)) :
  players_for_engine active_players locked_player_ids ⊆+ active_players.
Proof.
  unfold players_for_engine. destruct locked_player_ids as [ids|]; [|done].
  case_decide; [done|]. apply sublist_submseteq, sublist_filter.
Qed.

Section draw_facts.
Context `{Shuffler}.

(** X17. With active players of distinct ids and at least one court,
    [draw_new_round] never raises.  It reports an error exactly when
    fewer than 4 players are handed to the engine; otherwise it makes
    [min(num_courts, len // 4)] [create_match] calls, all for the new
    round, on courts 1, 2, ..., and the ids passed are pairwise distinct
    ids of players handed to the engine. *)
Theorem draw_new_round_calls (g : rng) (active_players : list player)
    (table : list match_row) (games_played wins_counts : gmap Z Z)
    (num_courts : Z) (locked_player_ids : option (gset Z)) (rid : Z) :
  NoDup (id <$> active_players) → 1 ≤ num_courts →
  let players := players_for_engine active_players locked_player_ids in
  ∃ r g',
    draw_new_round g active_players table games_played wins_counts
      num_courts locked_player_ids rid = Ok (r, g') ∧
    (r = None ↔ (length players < 4)%nat) ∧
    ∀ calls, r = Some calls →
      Z.of_nat (length calls) = match_count num_courts players ∧
      call_court_number <$> calls = seqZ 1 (Z.of_nat (length calls)) ∧
      Forall (λ c, call_round_id c = rid) calls ∧
      NoDup (concat (call_ids <$> calls)) ∧
      ∀ i, i ∈ concat (call_ids <$> calls) → ∃ p, p ∈ players ∧ id p = i.
Proof.
  intros Hnd Hcourts players. unfold draw_new_round. fold players.
  assert (NoDup (id <$> players)) as Hndp.
  { eapply submseteq_NoDup; [exact Hnd|].
    apply fmap_submseteq, players_for_engine_submseteq. }
  destruct (decide (length players < 4)%nat) as [Hlt|Hge].
  { rewrite generate_round_trivial by by left. cbn [mbind res_bind].
    rewrite decide_True by done. exists None, g. by split_and!. }
  assert (1 ≤ match_count num_courts players) as Hmm.
  { unfold match_count.
    assert (1 ≤ Z.of_nat (length players) `div` 4); [|lia].
    apply Z.div_le_lower_bound; lia. }
  destruct (generate_round_result g players num_courts
              (get_all_past_partnerships table) (get_all_past_opponents table)
              games_played wins_counts 200
              (bool_decide (locked_player_ids ≠ None)))
    as (b & g2 & ms & g' & _ & _ & Hgr & _ & Hshape); [lia | lia |].
  pose proof Hshape as (Htwo & Hcount & Hcourt & _).
  destruct (round_shape_distinct _ players _ ms Hndp
              (playing_submseteq _ _ _ _ _) Hshape) as (_ & Hdist & Hsub).
  destruct (create_match_calls_spec rid ms Htwo)
    as (calls & Hcalls & Hlen & Hcourts' & Hids & Hrid).
  rewrite Hgr. cbn [mbind res_bind].
  rewrite decide_False.
  2: { intros ->. simpl in Hcount. lia. }
  rewrite Hcalls. cbn [mbind res_bind].
  exists (Some calls), g'. split_and!; [done | | ].
  - split; [done | lia].
  - intros calls' [= <-]. split_and!.
    + rewrite Hlen, Hcount. lia.
    + by rewrite Hcourts', Hcourt, Hlen, Hcount.
    + done.
    + by rewrite Hids.
    + intros i Hi. rewrite Hids in Hi.
      apply list_elem_of_fmap in Hi as (p & -> & Hp).
      exists p. split; [|done]. by eapply elem_of_submseteq.
Qed.

(** X18. A redraw re-pairs the same players: when the locked ids are
    [4 * k] ids of active players and the courts can hold [k] matches,
    [draw_new_round] makes [k] [create_match] calls whose player ids are
    exactly the locked ids. *)
Theorem redraw_same_players (g : rng) (active_players : list player)
    (table : list match_row) (games_played wins_counts : gmap Z Z)
    (num_courts : Z) (ids : gset Z) (rid k : Z) :
  NoDup (id <$> active_players) →
  ids ⊆ list_to_set (id <$> active_players) →
  Z.of_nat (size ids) = 4 * k → 1 ≤ k ≤ num_courts →
  ∃ calls g',
    draw_new_round g active_players table games_played wins_counts
      num_courts (Some ids) rid = Ok (Some calls, g') ∧
    Z.of_nat (length calls) = k ∧
    list_to_set (concat (call_ids <$> calls)) = ids.
Proof.
  intros Hnd Hactive Hsize Hk.
  set (players := players_for_engine active_players (Some ids)).
  assert (ids ≠ ∅) as Hne.
  { intros ->. rewrite size_empty in Hsize. lia. }
  assert (players = filter (λ p, id p ∈ ids) active_players) as Hplayers.
  { unfold players, players_for_engine. by rewrite decide_False. }
  assert (NoDup (id <$> players)) as Hndp.
  { rewrite Hplayers. by apply filter_ids_NoDup. }
  assert (list_to_set (id <$> players) = ids) as Hset.
  { apply set_eq. intros i. rewrite elem_of_list_to_set, list_elem_of_fmap.
    split.
    - intros (p & -> & Hp). rewrite Hplayers in Hp.
      by apply list_elem_of_filter in Hp as [? _].
    - intros Hi. pose proof (Hactive i Hi) as Hin.
      apply elem_of_list_to_set, list_elem_of_fmap in Hin as (p & -> & Hp).
      exists p. split; [done|]. rewrite Hplayers.
      by apply list_elem_of_filter. }
  assert (Z.of_nat (length players) = 4 * k) as Hlen.
  { rewrite <- Hsize, <- Hset, size_list_to_set by done.
    by rewrite length_fmap. }
  assert (match_count num_courts players = k) as Hmm.
  { unfold match_count. rewrite Hlen.
    replace (4 * k) with (k * 4) by lia. rewrite Z.div_mul by lia. lia. }
  unfold draw_new_round. fold players.
  destruct (generate_round_result g players num_courts
              (get_all_past_partnerships table) (get_all_past_opponents table)
              games_played wins_counts 200 (bool_decide (Some ids ≠ None)))
    as (b & g2 & ms & g' & _ & _ & Hgr & _ & Htwo & Hcount & _ & Hsub);
    [lia | lia |].
  rewrite Hmm in Hcount, Hsub.
  assert (round_players ms ≡ₚ players) as Hperm.
  { apply submseteq_length_Permutation.
    - etrans; [apply Hsub|apply playing_submseteq].
      eapply submseteq_NoDup; [exact Hndp|].
      apply fmap_submseteq, playing_submseteq.
    - rewrite round_players_length by done. lia. }
  destruct (create_match_calls_spec rid ms Htwo)
    as (calls & Hcalls & Hlenc & _ & Hids & _).
  rewrite Hgr. cbn [mbind res_bind].
  rewrite decide_False.
  2: { intros ->. simpl in Hcount. lia. }
  rewrite Hcalls. cbn [mbind res_bind].
  exists calls, g'. split_and!; [done | lia |].
  by rewrite Hids, Hperm.
Qed.

End draw_facts.

Lemma draw_new_round_calls_witness :
  NoDup (id <$> eight) ∧ 1 ≤ 2 ∧
  ∃ r g',
    @draw_new_round draw_shuffler [3; 1; 4]%nat eight
      [MatchRow 7 1 1 1 2 3 4 None] ∅ ∅ 2 None 5 = Ok (r, g') ∧
    (r = None ↔ (length (players_for_engine eight None) < 4)%nat).
Proof.
  assert (NoDup (id <$> eight)) as Hnd by decide_closed.
  split_and!; [exact Hnd | lia |].
  destruct (@draw_new_round_calls draw_shuffler [3; 1; 4]%nat eight
              [MatchRow 7 1 1 1 2 3 4 None] ∅ ∅ 2 None 5 Hnd)
    as (r & g' & Hdraw & Hnone & _); [lia|].
  exists r, g'. exact (conj Hdraw Hnone).
Defined.

Lemma redraw_same_players_witness :
  NoDup (id <$> eight) ∧
  ({[1; 2; 5; 6]} : gset Z) ⊆ list_to_set (id <$> eight) ∧
  Z.of_nat (size ({[1; 2; 5; 6]} : gset Z)) = 4 * 1 ∧ 1 ≤ 1 ≤ 2 ∧
  ∃ calls g',
    @draw_new_round draw_shuffler [3; 1; 4]%nat eight
      [MatchRow 7 1 1 1 2 5 6 None] ∅ ∅ 2 (Some {[1; 2; 5; 6]}) 5
      = Ok (Some calls, g') ∧
    Z.of_nat (length calls) = 1 ∧
    list_to_set (concat (call_ids <$> calls)) = ({[1; 2; 5; 6]} : gset Z).
Proof.
  assert (NoDup (id <$> eight)) as Hnd by decide_closed.
  assert (({[1; 2; 5; 6]} : gset Z) ⊆ list_to_set (id <$> eight)) as Hsub
    by decide_closed.
  assert (Z.of_nat (size ({[1; 2; 5; 6]} : gset Z)) = 4 * 1) as Hsize
    by (vm_compute; reflexivity).
  split_and!; [exact Hnd | exact Hsub | exact Hsize | lia | lia |].
  apply (@redraw_same_players draw_shuffler [3; 1; 4]%nat eight
           [MatchRow 7 1 1 1 2 5 6 None] ∅ ∅ 2 {[1; 2; 5; 6]} 5 1
           Hnd Hsub Hsize).
  lia.
Defined.

(** * The grid of courts *)

Lemma filter_below_seqZ (len a : Z) (c : nat) :
  filter (λ i, ¬ (i >= len)) (seqZ a (Z.of_nat c)) =
    seqZ a (Z.max 0 (Z.min (Z.of_nat c) (len - a))).
Proof.
  induction c as [|c IH]; [by rewrite !seqZ_nil by lia|].
  rewrite seqZ_S, filter_app, IH, filter_cons, filter_nil.
  destruct (decide (¬ (a + Z.of_nat c >= len))) as [Hlt|Hge].
  - replace (Z.max 0 (Z.min (Z.of_nat (S c)) (len - a)))
      with (Z.of_nat (S c)) by lia.
    replace (Z.max 0 (Z.min (Z.of_nat c) (len - a))) with (Z.of_nat c) by lia.
    by rewrite seqZ_S.
  - rewrite app_nil_r. f_equal. lia.
Qed.

Lemma grid_row_seqZ (len num_cols row : Z) :
  0 ≤ num_cols →
  grid_row len num_cols row =
    seqZ (row * num_cols) (Z.max 0 (Z.min num_cols (len - row * num_cols))).
Proof.
  intros Hc. unfold grid_row, py_range.
  change (λ col_idx, row * num_cols + col_idx) with (Z.add (row * num_cols)).
  rewrite fmap_add_seqZ, Z.add_0_r.
  pose proof (filter_below_seqZ len (row * num_cols) (Z.to_nat num_cols))
    as Hf.
  by rewrite Z2Nat.id in Hf by done.
Qed.

Lemma grid_rows_seqZ (len num_cols : Z) (rows : nat) :
  1 ≤ num_cols → 0 ≤ len →
  concat (grid_row len num_cols <$> seqZ 0 (Z.of_nat rows)) =
    seqZ 0 (Z.min len (Z.of_nat rows * num_cols)).
Proof.
  intros Hc Hlen. induction rows as [|rows IH].
  - simpl. by rewrite seqZ_nil by lia.
  - rewrite seqZ_S, fmap_app, concat_app, IH. simpl.
    rewrite app_nil_r, grid_row_seqZ by lia.
    destruct (decide (len ≤ Z.of_nat rows * num_cols)) as [Hle|Hgt].
    + rewrite (seqZ_nil (Z.of_nat rows * num_cols)) by lia.
      rewrite app_nil_r. f_equal. lia.
    + replace (Z.min len (Z.of_nat rows * num_cols))
        with (Z.of_nat rows * num_cols) by lia.
      replace (Z.min len (Z.of_nat (S rows) * num_cols))
        with (Z.of_nat rows * num_cols
              + Z.max 0 (Z.min num_cols (len - Z.of_nat rows * num_cols)))
        by lia.
      rewrite seqZ_app by lia. by rewrite Z.add_0_l.
Qed.

Lemma subscript_all_seqZ {A} (matches : list A) (m k : nat) :
  (k + m ≤ length matches)%nat →
  subscript_all matches (seqZ (Z.of_nat k) (Z.of_nat m)) =
    Ok (take m (drop k matches)).
Proof.
  revert k. induction m as [|m IH]; intros k Hlen; [done|].
  rewrite seqZ_cons by lia. cbn [subscript_all].
  destruct (lookup_lt_is_Some_2 matches k) as [x Hx]; [lia|].
  rewrite (py_index_nonneg matches (Z.of_nat k) x); [|lia|by rewrite Nat2Z.id].
  cbn [mbind res_bind].
  replace (Z.succ (Z.of_nat k)) with (Z.of_nat (S k)) by lia.
  replace (Z.pred (Z.of_nat (S m))) with (Z.of_nat m) by lia.
  rewrite IH by lia. cbn [mbind res_bind].
  by rewrite (drop_S matches x k).
Qed.

(** X19. [render_courts] shows every match exactly once, in list order:
    the grid of [min(3, len)] columns and [ceil(len / columns)] rows
    visits the indices 0, 1, ..., len - 1 one after the other, the cells
    past the end are skipped, and no subscript is out of range. *)
Theorem render_courts_shows_all {A} (matches : list A) :
  render_courts matches = Ok matches.
Proof.
  unfold render_courts. case_decide as Hnil; [by rewrite Hnil|].
  assert (1 ≤ Z.of_nat (length matches)) as Hlen.
  { destruct matches; [done | simpl; lia]. }
  cbv zeta.
  set (len := Z.of_nat (length matches)) in *.
  set (num_cols := Z.min 3 len).
  set (rows := (len + num_cols - 1) `div` num_cols).
  assert (1 ≤ num_cols) as Hc by (unfold num_cols; lia).
  assert (0 ≤ rows) as Hr.
  { unfold rows. apply Z.div_pos; lia. }
  assert (len ≤ rows * num_cols) as Hcover.
  { unfold rows.
    pose proof (Z.div_mod (len + num_cols - 1) num_cols) as Hdm.
    pose proof (Z.mod_pos_bound (len + num_cols - 1) num_cols) as Hmod.
    nia. }
  unfold py_range. rewrite <- (Z2Nat.id rows) by done.
  rewrite grid_rows_seqZ by lia.
  rewrite Z2Nat.id by done.
  replace (Z.min len (rows * num_cols)) with len by lia.
  pose proof (subscript_all_seqZ matches (length matches) 0) as Hsub.
  change (Z.of_nat 0) with 0 in Hsub. fold len in Hsub.
  rewrite Hsub by lia. by rewrite drop_0, firstn_all.
Qed.

(** * A growing history *)





